(** * ITermExtractor.Morph: collocation identity, dedup and containment

    A shallow embedding of [ITermExtractor/Morph.py] and the properties of
    its head-word selector, identity comparators, dedup traversal,
    normal-form resolver and longer-term extractor.

    Python values are modelled as follows.
    - [str] is a list of Unicode code points ([N]), since every string
      operation of the module ([split], [replace], [in], [==], [sort]) works
      on code points.
    - A raised exception is a value of [exn]; a function that may raise
      returns a [result].
    - A list mutated in place is returned next to the outcome.
    - A distance is an element of a [float32] array: a binary32 number,
      subtracted in binary32.
    - The recursion of [binary_identity_check] is bounded by an explicit
      depth budget; [None] means the budget was exhausted. *)

From Stdlib Require Import Strings.String Strings.Ascii.
From Stdlib Require Import List Bool Arith NArith ZArith Lia Sorted Permutation.
From Stdlib Require Import Floats.
Import Corelib.Init.Datatypes.
Import ListNotations.

Set Implicit Arguments.

(** * Model *)

(** ** Python strings *)

Module Str.

Definition char := N.
Definition str := list char.

(** Decoder of UTF-8 literals, used to write the examples. [need] counts
    the continuation bytes still expected and [acc] holds the bits read. *)
Fixpoint decode_from (need : nat) (acc : N) (bs : list N) : str :=
  match bs with
  | [] => []
  | b :: bs' =>
      match need with
      | O =>
          if (b <? 128)%N then b :: decode_from 0 0 bs'
          else if (b <? 224)%N then decode_from 1 (N.land b 31) bs'
          else if (b <? 240)%N then decode_from 2 (N.land b 15) bs'
          else decode_from 3 (N.land b 7) bs'
      | S k =>
          let acc' := N.lor (N.shiftl acc 6) (N.land b 63) in
          match k with
          | O => acc' :: decode_from 0 0 bs'
          | S _ => decode_from k acc' bs'
          end
      end
  end.

Definition u (s : string) : str :=
  decode_from 0 0 (map N_of_ascii (list_ascii_of_string s)).

Arguments u s%_string.

Definition space : char := 32%N.
(** U+0451 CYRILLIC SMALL LETTER IO and U+0435 CYRILLIC SMALL LETTER IE. *)
Definition yo : char := 1105%N.
Definition ye : char := 1077%N.
(** U+0401 CYRILLIC CAPITAL LETTER IO, which [str.lower] turns into
    [yo]. *)
Definition capital_yo : char := 1025%N.

Fixpoint eqb (a b : str) : bool :=
  match a, b with
  | [], [] => true
  | x :: a', y :: b' => (x =? y)%N && eqb a' b'
  | _, _ => false
  end.

(** [str.isspace] for one code point, after CPython's table. *)
Definition isspace (c : char) : bool :=
  ((9 <=? c) && (c <=? 13) || (28 <=? c) && (c <=? 32)
   || (c =? 133) || (c =? 160) || (c =? 5760)
   || (8192 <=? c) && (c <=? 8202)
   || (c =? 8232) || (c =? 8233) || (c =? 8239) || (c =? 8287)
   || (c =? 12288))%N.

(** [s.split()]: maximal runs of non-blank characters. [cur] is the run
    being read, reversed. *)
Fixpoint split_from (cur : str) (s : str) : list str :=
  match s with
  | [] => match cur with [] => [] | _ :: _ => [rev cur] end
  | c :: s' =>
      if isspace c then
        match cur with
        | [] => split_from [] s'
        | _ :: _ => rev cur :: split_from [] s'
        end
      else split_from (c :: cur) s'
  end.

Definition split (s : str) : list str := split_from [] s.

(** [s.split(sep)] for a one-character separator: every occurrence cuts,
    empty pieces are kept. *)
Fixpoint split_on_from (sep : char) (cur : str) (s : str) : list str :=
  match s with
  | [] => [rev cur]
  | c :: s' =>
      if (c =? sep)%N then rev cur :: split_on_from sep [] s'
      else split_on_from sep (c :: cur) s'
  end.

Definition split_on (sep : char) (s : str) : list str := split_on_from sep [] s.

(** [sep.join(parts)]. *)
Fixpoint join (sep : str) (parts : list str) : str :=
  match parts with
  | [] => []
  | [p] => p
  | p :: ps => p ++ sep ++ join sep ps
  end.

(** [s.count(c)] for a one-character argument. *)
Definition count (c : char) (s : str) : nat :=
  length (filter (fun x => (x =? c)%N) s).

(** [s.replace(old, new)] for one-character arguments. *)
Definition replace (old new : char) (s : str) : str :=
  map (fun c => if (c =? old)%N then new else c) s.

Fixpoint starts_with (p s : str) : bool :=
  match p, s with
  | [], _ => true
  | x :: p', y :: s' => (x =? y)%N && starts_with p' s'
  | _ :: _, [] => false
  end.

(** [needle in hay] on strings. *)
Fixpoint contains (needle hay : str) : bool :=
  starts_with needle hay
  || match hay with
     | [] => false
     | _ :: hay' => contains needle hay'
     end.

(** [a < b] on strings: lexicographic on code points. *)
Fixpoint ltb (a b : str) : bool :=
  match a, b with
  | _, [] => false
  | [], _ :: _ => true
  | x :: a', y :: b' => (x <? y)%N || (x =? y)%N && ltb a' b'
  end.

(** [l.sort()]: a stable insertion sort; an element goes after the ones
    that are not greater. *)
Fixpoint insert_sorted (x : str) (l : list str) : list str :=
  match l with
  | [] => [x]
  | y :: l' => if ltb x y then x :: y :: l' else y :: insert_sorted x l'
  end.

Definition sort (l : list str) : list str := fold_right insert_sorted [] l.

(** [x in l] on a list of strings. *)
Definition mem (x : str) (l : list str) : bool := existsb (eqb x) l.

End Str.

Import Str.

(** ** Single-precision floats

    An element of a NumPy array of type [float32] is a binary32 number:
    24 bits of precision, exponents below 128. The operations are those
    of the IEEE 754 specification of the Standard Library at that
    format. *)

Definition float32 : Type := spec_float.

Definition float32_zero : float32 := S754_zero false.

Definition float32_one : float32 := S754_finite false 8388608 (-23).

(** [a - b] on two [float32] scalars: rounded to nearest, ties to even. *)
Definition float32_sub : float32 -> float32 -> float32 := SFsub 24 128.

(** [a < b] on two [float32] scalars. *)
Definition float32_ltb : float32 -> float32 -> bool := SFltb.

(** The binary64 number of the same value; every binary32 number has
    one. *)
Definition float32_to_float (x : float32) : float :=
  SF2Prim (match x with
           | S754_finite s m e => binary_round 53 1024 s m e
           | _ => x
           end).

(** ** Exceptions *)

Inductive exn := TypeError | ValueError | IndexError | AttributeError.

Inductive result (A : Type) :=
| Ok (a : A)
| Raise (e : exn).

Arguments Ok {A} a.
Arguments Raise {A} e.

Definition bind {A B : Type} (r : result A) (k : A -> result B) : result B :=
  match r with
  | Ok a => k a
  | Raise e => Raise e
  end.

Notation "x <- e ;; k" := (bind e (fun x => k))
  (at level 61, e at next level, right associativity).

(** A list comprehension whose body may raise: the first exception, in
    list order, ends it. *)
Fixpoint comprehension {A B : Type} (f : A -> result B) (l : list A)
  : result (list B) :=
  match l with
  | [] => Ok []
  | a :: l' => b <- f a ;; bs <- comprehension f l' ;; Ok (b :: bs)
  end.

(** [try: r except ValueError: default]. *)
Definition except_ValueError {A : Type} (r : result A) (default : A)
  : result A :=
  match r with
  | Raise ValueError => Ok default
  | _ => r
  end.

(** ** Tag model *)

(** Modelled from the spec: the enumeration [PartOfSpeech] of
    [ITermExtractor.Structures.PartOfSpeech] is not in the sources. The
    spec gives noun, adjective, verb, adverb, none and further members,
    which [pos_other] stands for. *)
Inductive PartOfSpeech :=
| noun | adjective | verb | adverb | pos_none | pos_other (k : nat).

(** Modelled from the spec: the enumeration [Case] of
    [ITermExtractor.Structures.Case] is not in the sources. The spec gives
    nominative, genitive, accusative, none and further members, which
    [case_other] stands for. *)
Inductive Case :=
| nominative | genitive | accusative | case_none | case_other (k : nat).

Definition PartOfSpeech_eqb (a b : PartOfSpeech) : bool :=
  match a, b with
  | noun, noun | adjective, adjective | verb, verb | adverb, adverb
  | pos_none, pos_none => true
  | pos_other j, pos_other k => j =? k
  | _, _ => false
  end.

Definition Case_eqb (a b : Case) : bool :=
  match a, b with
  | nominative, nominative | genitive, genitive | accusative, accusative
  | case_none, case_none => true
  | case_other j, case_other k => j =? k
  | _, _ => false
  end.

(** Modelled from the spec: the named tuples [TaggedWord] and [Separator]
    of [ITermExtractor.Structures.WordStructures] are not in the sources;
    the fields are the ones the spec lists and [Morph.py] reads. *)
Record TaggedWord := {
  word : str;
  pos : PartOfSpeech;
  case : Case;
  normalized : str
}.

Record Separator := { symbol : char }.

(** Named tuples compare field by field. *)
Definition TaggedWord_eqb (a b : TaggedWord) : bool :=
  Str.eqb (word a) (word b) && PartOfSpeech_eqb (pos a) (pos b)
  && Case_eqb (case a) (case b) && Str.eqb (normalized a) (normalized b).

(** An element of a tagged sequence as [tag_collocation] builds it: a
    tagged word, a separator, or [None] where [tag_word] gave nothing. *)
Inductive item :=
| Tagged (w : TaggedWord)
| Sep (s : Separator)
| NoneItem.

Definition item_eqb (a b : item) : bool :=
  match a, b with
  | Tagged x, Tagged y => TaggedWord_eqb x y
  | Sep x, Sep y => (symbol x =? symbol y)%N
  | NoneItem, NoneItem => true
  | _, _ => false
  end.

Fixpoint items_eqb (a b : list item) : bool :=
  match a, b with
  | [], [] => true
  | x :: a', y :: b' => item_eqb x y && items_eqb a' b'
  | _, _ => false
  end.

(** [x.normalized] and [x.word]: only a [TaggedWord] has them. *)
Definition attr_normalized (x : item) : result str :=
  match x with
  | Tagged w => Ok (normalized w)
  | _ => Raise AttributeError
  end.

Definition attr_word (x : item) : result str :=
  match x with
  | Tagged w => Ok (word w)
  | _ => Raise AttributeError
  end.

(** [l[0]]. *)
Definition index0 {A : Type} (l : list A) : result A :=
  match l with
  | x :: _ => Ok x
  | [] => Raise IndexError
  end.

(** [list(enumerate(l))]. *)
Fixpoint enumerate_from {A : Type} (i : Z) (l : list A) : list (Z * A) :=
  match l with
  | [] => []
  | a :: l' => (i, a) :: enumerate_from (i + 1)%Z l'
  end.

Definition enumerate {A : Type} (l : list A) : list (Z * A) :=
  enumerate_from 0%Z l.

(** [l[i]] for an [int] index: negative ones count from the end. *)
Definition getitem {A : Type} (l : list A) (i : Z) : result A :=
  let n := Z.of_nat (length l) in
  let j := (if i <? 0 then i + n else i)%Z in
  if (j <? 0)%Z then Raise IndexError
  else
    match nth_error l (Z.to_nat j) with
    | Some a => Ok a
    | None => Raise IndexError
    end.

(** [l.index(True)] on a list that holds [True]. *)
Fixpoint index_True (l : list bool) : nat :=
  match l with
  | [] => 0
  | b :: l' => if b then 0 else S (index_True l')
  end.

(** Modelled from the spec: the record [Collocation] of
    [ITermExtractor.Structures.WordStructures] is not in the sources; the
    spec calls it a mutable record, and the fields are, in the order of the
    constructor call in [replace_main_word], [collocation], [wordcount],
    [freq], [pnormal_form], [llinked] and [id]. *)
Record Collocation := {
  collocation : str;
  wordcount : Z;
  freq : Z;
  pnormal_form : str;
  llinked : list Z;
  coll_id : Z
}.

(** [c.collocation = text]. *)
Definition set_collocation (c : Collocation) (text : str) : Collocation :=
  {| collocation := text; wordcount := wordcount c; freq := freq c;
     pnormal_form := pnormal_form c; llinked := llinked c;
     coll_id := coll_id c |}.

(** ** Head-word selector *)

Definition pos_in (p : PartOfSpeech) (l : list PartOfSpeech) : bool :=
  existsb (PartOfSpeech_eqb p) l.

Definition pos_count (p : PartOfSpeech) (l : list PartOfSpeech) : nat :=
  length (filter (PartOfSpeech_eqb p) l).

Definition is_noun (w : TaggedWord) : bool := PartOfSpeech_eqb (pos w) noun.

Definition is_nom_or_acc (w : TaggedWord) : bool :=
  Case_eqb (case w) nominative || Case_eqb (case w) accusative.

(** [all(isinstance(word, TaggedWord) for word in collocation)], with the
    words when it holds. *)
Fixpoint as_tagged (c : list item) : option (list TaggedWord) :=
  match c with
  | [] => Some []
  | Tagged w :: c' =>
      match as_tagged c' with
      | Some ws => Some (w :: ws)
      | None => None
      end
  | _ :: _ => None
  end.

(** The loop of the one-noun branch: no [break], the last noun stays. *)
Definition noun_loop (ws : list TaggedWord) (result : str) : str :=
  fold_left (fun r w => if is_noun w then word w else r) ws result.

(** The loop of the other branch: [break] at the first word in the
    nominative or accusative. *)
Fixpoint case_loop (ws : list TaggedWord) (result : str) : str :=
  match ws with
  | [] => result
  | w :: ws' => if is_nom_or_acc w then word w else case_loop ws' result
  end.

Definition get_main_word_tagged (ws : list TaggedWord) : result str :=
  let pos_l := map pos ws in
  let flag := negb (pos_in verb pos_l && pos_in adverb pos_l) in
  if negb flag then Raise ValueError
  else
    if (length ws =? 1) && pos_in noun pos_l then
      match ws with
      | w0 :: _ => Ok (word w0)
      | [] => Raise IndexError
      end
    else
      let nouns := pos_count noun pos_l in
      if nouns =? 1 then Ok (noun_loop ws [])
      else
        let result := case_loop ws [] in
        if Str.eqb result [] then
          match filter is_noun ws with
          | n0 :: _ => Ok (word n0)
          | [] => Ok result
          end
        else Ok result.

Definition get_main_word (c : list item) : result str :=
  match as_tagged c with
  | None => Ok []
  | Some ws => if length ws =? 0 then Ok [] else get_main_word_tagged ws
  end.

(** A [TaggedWord] written with string literals. *)
Definition tw (w : string) (p : PartOfSpeech) (c : Case) (n : string)
  : TaggedWord :=
  {| word := u w; pos := p; case := c; normalized := u n |}.

Arguments tw w%_string p c n%_string.

(** The surface form of the first noun of [ws], the empty string when
    there is none. *)
Definition first_noun_word (ws : list TaggedWord) : str :=
  match find is_noun ws with Some n => word n | None => [] end.

(** The word the phrase [ws] yields when its nouns are not exactly one:
    the first word in the nominative or accusative, unless there is none
    or its surface form is empty, and then the first noun, if any. *)
Definition preferred_word (ws : list TaggedWord) : str :=
  match find is_nom_or_acc ws with
  | Some w => if Str.eqb (word w) [] then first_noun_word ws else word w
  | None => first_noun_word ws
  end.

(** Two phrases for the runs: one without a noun, one with three nouns
    and an adjective in the accusative. *)
Definition two_adjectives : list TaggedWord :=
  [tw "большой" adjective nominative "большой";
   tw "боевой" adjective nominative "боевой"].

Definition fire_of_artillery : list TaggedWord :=
  [tw "огня" noun genitive "огонь";
   tw "артиллерии" noun genitive "артиллерия";
   tw "большой" adjective accusative "большой";
   tw "мощности" noun genitive "мощность"].

(** ** Containment: sub-phrases *)

(** What [make_substrs] returns: the empty string for the empty input, a
    list otherwise. *)
Inductive str_or_list :=
| AStr (s : str)
| AList (l : list str).

(** [for x in v]: a string yields its characters, a list its elements. *)
Definition iterate (v : str_or_list) : list str :=
  match v with
  | AStr s => map (fun c => [c]) s
  | AList l => l
  end.

(** [range(start, stop)] and [range(start, stop, -1)] on naturals. *)
Definition range (start stop : nat) : list nat := seq start (stop - start).

Definition range_down (start stop : nat) : list nat :=
  rev (seq (stop + 1) (start - stop)).

(** [l[start:stop]] for [0 <= start]. *)
Definition slice {A : Type} (l : list A) (start stop : nat) : list A :=
  firstn (stop - start) (skipn start l).

Definition make_substrs (collocation : str) : str_or_list :=
  if Str.eqb collocation [] then AStr []
  else
    let words := Str.split collocation in
    AList
      (flat_map
         (fun wcount =>
            map (fun j => Str.join [space] (slice words j (j + wcount)))
                (range 0 (length words - wcount + 1)))
         (range_down (length words - 1) 1)).

(** The contiguous sub-phrase of [k] words that starts at word [j]. *)
Definition sub_phrase (words : list str) (kj : nat * nat) : str :=
  Str.join [space] (firstn (fst kj) (skipn (snd kj) words)).

(** Longer first; for one length, leftmost first. *)
Definition before (a b : nat * nat) : Prop :=
  fst b < fst a \/ (fst a = fst b /\ snd a < snd b).

(** The (length, start) pairs in the order in which [make_substrs] visits
    them, for a phrase of [n] words. *)
Definition visits (n : nat) : list (nat * nat) :=
  flat_map (fun k => map (pair k) (range 0 (n - k + 1))) (range_down (n - 1) 1).

(** ** Containment: dictionary tagging *)

(** The first argument of [assign_tags]: a string or a [Collocation]. *)
Inductive phrase_arg :=
| PStr (s : str)
| PColl (c : Collocation).

Definition raw_words_of (phrase : phrase_arg) : list str :=
  match phrase with
  | PStr s => Str.split_on space s
  | PColl c => Str.split_on space (collocation c)
  end.

Definition assign_tags (phrase : phrase_arg) (dictionary : list TaggedWord)
  : list TaggedWord :=
  let raw_words := raw_words_of phrase in
  filter (fun w => Str.mem (word w) raw_words) dictionary.

(** The dictionary of the docstrings of [assign_tags] and
    [get_longer_terms]. *)
Definition doc_dictionary : list TaggedWord :=
  [tw "построения" noun genitive "построениe";
   tw "боевых" adjective genitive "боевой";
   tw "порядков" noun genitive "порядок";
   tw "распределение" noun nominative "распределение";
   tw "боевой" noun nominative "боевой";
   tw "порядок" noun nominative "порядок"].

(** ** Word membership *)

(** The loop of [is_word_in_tuple_list]: [flag] accumulates with [|=], and
    the loop stops as soon as it holds. *)
Fixpoint word_in_loop (ws : list TaggedWord) (check_word : str) (flag : bool)
  : bool :=
  match ws with
  | [] => flag
  | w :: ws' =>
      let flag := flag || Str.eqb check_word (word w) in
      if flag then flag else word_in_loop ws' check_word flag
  end.

Definition is_word_in_tuple_list (collocation : list item) (check_word : str)
  : result bool :=
  match as_tagged collocation with
  | None => Raise TypeError
  | Some ws =>
      if length ws =? 0 then Raise TypeError
      else if Str.eqb check_word [] then Raise TypeError
      else
        let flag := true in
        Ok (word_in_loop ws check_word flag)
  end.

(** ** Normal form by head word (deprecated resolver) *)

(** [[word for word in c if word.word == main_word]]: reading [.word]
    raises on an element that is not a [TaggedWord]. *)
Fixpoint words_equal_to (main_word : str) (c : list item)
  : result (list TaggedWord) :=
  match c with
  | [] => Ok []
  | Tagged w :: c' =>
      rest <- words_equal_to main_word c' ;;
      Ok (if Str.eqb (word w) main_word then w :: rest else rest)
  | _ :: _ => Raise AttributeError
  end.

(** The loop of [get_collocation_normal_form_old] from position [i] on:
    [continue] on an empty head word, [break] at the first phrase whose
    head word is in the nominative or equal to its lemma. *)
Fixpoint normal_form_old_loop (i : Z) (collocations : list (list item))
  : result Z :=
  match collocations with
  | [] => Ok (-1)%Z
  | c :: rest =>
      main_word <- get_main_word c ;;
      if Str.eqb main_word [] then normal_form_old_loop (i + 1)%Z rest
      else
        main_word_tagged_l <- words_equal_to main_word c ;;
        match main_word_tagged_l with
        | main_word_tagged :: _ =>
            if Case_eqb (case main_word_tagged) nominative
               || Str.eqb (word main_word_tagged) (normalized main_word_tagged)
            then Ok i
            else normal_form_old_loop (i + 1)%Z rest
        | [] => normal_form_old_loop (i + 1)%Z rest
        end
  end.

Definition get_collocation_normal_form_old (collocations : list (list item))
  : result Z :=
  normal_form_old_loop 0%Z collocations.

(** A phrase whose head word is found, and is in the nominative or equal
    to its lemma: what [get_collocation_normal_form_old] looks for. *)
Definition head_in_normal_form (c : list item) : bool :=
  match get_main_word c, as_tagged c with
  | Ok main_word, Some ws =>
      negb (Str.eqb main_word [])
      && match find (fun w => Str.eqb (word w) main_word) ws with
         | Some w =>
             Case_eqb (case w) nominative || Str.eqb (word w) (normalized w)
         | None => false
         end
  | _, _ => false
  end.

(** ** Link graph validator *)

(** [x in ids] on integers. *)
Definition Z_mem (x : Z) (ids : list Z) : bool := existsb (Z.eqb x) ids.

(** The two values that [find_candidate_by_id] logs on a miss: whether
    every candidate with links has all of them among the ids of the list,
    and whether some candidate with links has. The keys of
    [collocation_dict] are the ids of the list. *)
Definition link_diagnostic (collocation_list : list Collocation) : bool * bool :=
  let collocation_dict_keys := map coll_id collocation_list in
  let collocation_with_links :=
    filter (fun x => 0 <? length (llinked x)) collocation_list in
  let link_integrity_checks :=
    map (fun p => forallb (fun link => Z_mem link collocation_dict_keys)
                          (llinked p))
        collocation_with_links in
  let flag := forallb id link_integrity_checks in
  (flag, existsb id link_integrity_checks).

(** [find_candidate_by_id]: the candidate or [None], and what is logged. *)
Definition find_candidate_by_id (collocation_list : list Collocation) (cid : Z)
  : option Collocation * option (bool * bool) :=
  let results := filter (fun c => (coll_id c =? cid)%Z) collocation_list in
  let result := match results with r :: _ => Some r | [] => None end in
  match result with
  | None => (result, Some (link_diagnostic collocation_list))
  | Some _ => (result, None)
  end.

(** Every link of every candidate is the id of a candidate of the list. *)
Definition links_closed (l : list Collocation) : Prop :=
  forall p link, In p l -> In link (llinked p) -> In link (map coll_id l).

(** ** Tagger

    [tag_word] and [tag_collocation], parametric in what they take from
    outside:
    - [char_isalpha] is [str.isalpha] on one character, which follows the
      Unicode character database;
    - [analyze] is the second half of [tag_word]: the call of the
      analyzer, the choice among its parses and the conversion of part of
      speech, case and lemma; it gives [None] where that half returns
      [None];
    - [non_whitespace_separators] is the string of that name of
      [ITermExtractor.Structures.WordStructures], which is not in the
      sources. *)

Module Tagger.

Section Analyzer.

Variable char_isalpha : char -> bool.
Variable analyze : str -> result (option (PartOfSpeech * Case * str)).
Variable non_whitespace_separators : str.

Definition hyphen : char := 45%N.

(** [s.isalpha()]: at least one character, and all alphabetic. *)
Definition isalpha (s : str) : bool :=
  negb (Str.eqb s []) && forallb char_isalpha s.

(** [s.find(c)] for a character: the first position, or -1. *)
Fixpoint find_char_from (i : Z) (c : char) (s : str) : Z :=
  match s with
  | [] => (-1)%Z
  | x :: s' => if (x =? c)%N then i else find_char_from (i + 1)%Z c s'
  end.

Definition find_char (c : char) (s : str) : Z := find_char_from 0%Z c s.

(** [s.find(sub)]: the first position where [sub] starts, or -1. *)
Fixpoint find_from (i : Z) (sub s : str) : Z :=
  if Str.starts_with sub s then i
  else
    match s with
    | [] => (-1)%Z
    | _ :: s' => find_from (i + 1)%Z sub s'
    end.

Definition find (sub s : str) : Z := find_from 0%Z sub s.

(** The character class [[a-zA-Zа-яА-Я-]]. *)
Definition word_symbol (c : char) : bool :=
  ((97 <=? c) && (c <=? 122) || (65 <=? c) && (c <=? 90)
   || (1072 <=? c) && (c <=? 1103) || (1040 <=? c) && (c <=? 1071)
   || (c =? hyphen))%N.

(** [re.findall('[a-zA-Zа-яА-Я-]{1,}', s)]: the maximal runs of
    characters of the class. [cur] is the run being read, reversed. *)
Fixpoint findall_from (cur : str) (s : str) : list str :=
  match s with
  | [] => match cur with [] => [] | _ :: _ => [rev cur] end
  | c :: s' =>
      if word_symbol c then findall_from (c :: cur) s'
      else
        match cur with
        | [] => findall_from [] s'
        | _ :: _ => rev cur :: findall_from [] s'
        end
  end.

Definition findall (s : str) : list str := findall_from [] s.

Definition float_of_nat (n : nat) : float :=
  PrimFloat.of_uint63 (Uint63.of_Z (Z.of_nat n)).

(** [trues / len >= 0.7] on binary64 floats; 0.7 is the float nearest to
    it. *)
Definition ratio_ok (trues len : nat) : bool :=
  PrimFloat.leb 0x1.6666666666666p-1%float
                (PrimFloat.div (float_of_nat trues) (float_of_nat len)).

(** The first half of [tag_word]: whether the word is valid, and the word
    that goes to the analyzer. *)
Definition validate (word : str) : result (bool * str) :=
  let is_word_valid := isalpha word || (0 <? find_char hyphen word)%Z in
  let validity_check := is_word_valid in
  if negb is_word_valid then
    let symbol_check :=
      map (fun symbol => char_isalpha symbol || (symbol =? hyphen)%N) word in
    if length symbol_check =? 0 then Ok (false, word)
    else
      let validity_check :=
        ratio_ok (length (filter id symbol_check)) (length symbol_check) in
      if validity_check then
        let parts := findall word in
        let validity_check := length parts =? 1 in
        word <- index0 parts ;;
        Ok (validity_check, word)
      else Ok (validity_check, word)
  else Ok (validity_check, word).

Definition tag_word (word : str) : result (option TaggedWord) :=
  checked <- validate word ;;
  let validity_check := fst checked in
  let word := snd checked in
  if negb validity_check then Ok None
  else
    parsed <- analyze word ;;
    match parsed with
    | None => Ok None
    | Some (pos, case, normalized) =>
        Ok (Some {| word := word; pos := pos; case := case;
                    normalized := normalized |})
    end.

(** [sorted(l, key=itemgetter(1))] on (separator, position) pairs: a
    stable insertion sort. *)
Fixpoint insert_by_position (x : char * Z) (l : list (char * Z))
  : list (char * Z) :=
  match l with
  | [] => [x]
  | y :: l' =>
      if (snd y <? snd x)%Z then y :: insert_by_position x l'
      else x :: y :: l'
  end.

Definition sorted_by_position (l : list (char * Z)) : list (char * Z) :=
  fold_right insert_by_position [] l.

(** [s.strip(chars)]. *)
Fixpoint lstrip (chars : str) (s : str) : str :=
  match s with
  | [] => []
  | c :: s' => if Str.contains [c] chars then lstrip chars s' else s
  end.

Definition strip (chars : str) (s : str) : str :=
  rev (lstrip chars (rev (lstrip chars s))).

(** The separators of [non_whitespace_separators] that occur in [word],
    each with its first position, by position. *)
Definition existing_separators (word : str) : list (char * Z) :=
  sorted_by_position
    (map (fun s => (s, find_char s word))
         (filter (fun s => Str.contains [s] word) non_whitespace_separators)).

Definition to_item (tagged_word : option TaggedWord) : item :=
  match tagged_word with
  | Some w => Tagged w
  | None => NoneItem
  end.

(** The words tagged one by one, those without a tagged word left out. *)
Definition kept (ts : list (option TaggedWord)) : list item :=
  flat_map (fun t => match t with Some w => [Tagged w] | None => [] end) ts.

(** The loop of [tag_collocation] over the words; [tagged_words] is the
    list built so far. *)
Fixpoint tag_words (words : list str) (tagged_words : list item)
  : result (list item) :=
  match words with
  | [] => Ok tagged_words
  | word :: rest =>
      let existing_separators := existing_separators word in
      if 0 <? length existing_separators then
        let separatorless_word := strip non_whitespace_separators word in
        let word_position := find separatorless_word word in
        tagged_word <- tag_word separatorless_word ;;
        let preceding_separators :=
          map (fun s => Sep {| symbol := fst s |})
              (filter (fun s => (snd s <? word_position)%Z)
                      existing_separators) in
        let following_separators :=
          map (fun s => Sep {| symbol := fst s |})
              (filter (fun s => (word_position <? snd s)%Z)
                      existing_separators) in
        if negb (length preceding_separators =? 0)
           && negb (length following_separators =? 0)
           && match tagged_word with None => true | Some _ => false end
        then tag_words rest tagged_words
        else
          tag_words rest
            (tagged_words ++ preceding_separators
               ++ [to_item tagged_word] ++ following_separators)
      else
        tagged_word <- tag_word word ;;
        match tagged_word with
        | Some w => tag_words rest (tagged_words ++ [Tagged w])
        | None => tag_words rest tagged_words
        end
  end.

Definition tag_collocation (collocation : str) : result (list item) :=
  let words := Str.split collocation in
  tag_words words [].

End Analyzer.

End Tagger.

(** ** Instances for the concrete runs

    The comparators, the extractor and the resolver below are stated for
    every [lower], [is_correct_word], tagger and distance. The concrete
    runs fix small ones. *)

(** [str.lower] on the Latin and Russian letters. *)
Definition lower_ru (s : str) : str :=
  map (fun c =>
         if ((65 <=? c) && (c <=? 90))%N then (c + 32)%N
         else if ((1040 <=? c) && (c <=? 1071))%N then (c + 32)%N
         else if (c =? capital_yo)%N then yo
         else c) s.

Definition is_letter (c : char) : bool :=
  ((65 <=? c) && (c <=? 90) || (97 <=? c) && (c <=? 122)
   || (1040 <=? c) && (c <=? 1103) || (c =? 1025) || (c =? 1105))%N.

(** Modelled from the spec: [helpers.is_correct_word] is not in the
    sources. The spec asks for alphabetic words, an internal hyphen
    apart: here a non-empty string of Latin or Russian letters and
    hyphens. *)
Definition is_correct_word_ru (w : str) : bool :=
  negb (Str.eqb w []) && forallb (fun c => is_letter c || (c =? 45)%N) w.

(** A tagger that answers from a lexicon: each word of the text gets the
    first entry with its surface form, and a word without an entry is
    left out, as [tag_collocation] does when [tag_word] gives [None]. *)
Definition lexicon_tagger (lexicon : list TaggedWord) (text : str) : list item :=
  flat_map
    (fun w =>
       match find (fun e => Str.eqb (word e) w) lexicon with
       | Some e => [Tagged e]
       | None => []
       end)
    (Str.split text).

Definition lexicon : list TaggedWord :=
  [tw "огонь" noun nominative "огонь";
   tw "огня" noun genitive "огонь";
   tw "артиллерии" noun genitive "артиллерия";
   tw "вызов" noun nominative "вызов";
   tw "большой" adjective genitive "большой";
   tw "мощности" noun genitive "мощность";
   tw "основная" adjective nominative "основной";
   tw "задача" noun nominative "задача";
   tw "стрелкового" adjective genitive "стрелковый";
   tw "оружия" noun genitive "оружие"].

Definition tag_ru : str -> list item := lexicon_tagger lexicon.

(** A stand-in for the external distance: 0 on equal strings, 1
    otherwise. *)
Definition distance_01 (a b : str) : float32 :=
  if Str.eqb a b then float32_zero else float32_one.

(** A stand-in that reads the distance to a surface text off a table,
    and gives 1 for a text that is not in it. *)
Definition distance_by_table (table : list (str * float32)) (a b : str)
  : float32 :=
  match find (fun row => Str.eqb (fst row) b) table with
  | Some row => snd row
  | None => float32_one
  end.

(** The candidates of the docstring of [binary_identity_check]. *)
Definition doc_candidates : list (Z * list item) :=
  enumerate
    (map tag_ru
         [u "огонь артиллерии"; u "вызов огня артиллерии";
          u "огня артиллерии большой мощности"; u "огня артиллерии"]).

(** The candidates of the docstring of [count_includes]. *)
Definition doc_collocations : list (list item) :=
  map tag_ru
      [u "огонь артиллерии"; u "вызов огня артиллерии";
       u "огня артиллерии большой мощности"; u "огня артиллерии"].

(** A [Collocation] with the text and word count given. *)
Definition coll (text : string) (n : Z) : Collocation :=
  {| collocation := u text; wordcount := n; freq := 1%Z;
     pnormal_form := []; llinked := []; coll_id := 0%Z |}.

Arguments coll text%_string n%_Z.

(** A dictionary for the runs of [get_longer_terms]. *)
Definition fire_dictionary : list TaggedWord :=
  [tw "огонь" noun nominative "огонь";
   tw "огня" noun genitive "огонь";
   tw "артиллерии" noun genitive "артиллерия"].

(** Two phrases whose head words hold digits. *)
Definition tank_a : list item :=
  [Tagged (tw "т34" noun nominative "т34");
   Tagged (tw "огня" noun genitive "огонь")].

Definition tank_b : list item :=
  [Tagged (tw "т62" noun nominative "т62");
   Tagged (tw "огня" noun genitive "огонь")].

(** An analyzer that answers from a lexicon, for the runs of the tagger. *)
Definition analyze_with (lexicon : list TaggedWord) (w : str)
  : result (option (PartOfSpeech * Case * str)) :=
  Ok (option_map (fun e => (pos e, case e, normalized e))
                 (find (fun e => Str.eqb (word e) w) lexicon)).

Definition day_lexicon : list TaggedWord :=
  [tw "парково-хозяйственный" adjective nominative "парково-хозяйственный";
   tw "парково-хозяйственного" adjective genitive "парково-хозяйственный";
   tw "день" noun nominative "день";
   tw "дня" noun genitive "день"].

(** The separators used in the runs of the tagger. *)
Definition separators_ru : str := u "-,.".

(** The tagger of the sources on the instances above; an exception of
    [tag_word] is read as nothing tagged. *)
Definition tag_day (text : str) : list item :=
  match
    Tagger.tag_collocation is_letter (analyze_with day_lexicon)
      separators_ru text
  with
  | Ok items => items
  | Raise _ => []
  end.

(** Candidates with ids and links for the runs of the link validator. *)
Definition linked (text : string) (n : Z) (links : list Z) (i : Z)
  : Collocation :=
  {| collocation := u text; wordcount := n; freq := 1%Z;
     pnormal_form := []; llinked := links; coll_id := i |}.

Arguments linked text%_string n%_Z links i%_Z.

Definition linked_candidates : list Collocation :=
  [linked "огонь артиллерии" 2 [2%Z] 1;
   linked "огня артиллерии" 2 [1%Z] 2;
   linked "вызов огня артиллерии" 3 [] 3].

(** ** Comparators, dedup engine, extractor and resolver

    The section is parametric in what [Morph.py] takes from outside:
    - [lower] is [str.lower], which follows the Unicode character
      database;
    - [is_correct_word] is [helpers.is_correct_word], whose module is not
      in the sources;
    - [tag_collocation] is the tagger: its result comes from the
      analyzer [pymorphy2.MorphAnalyzer], an external collaborator;
    - [distance] is the external
      [normalized_damerau_levenshtein_distance_ndarray], applied to the
      pseudo-normal form and one surface text; the array it returns has
      elements of type [float32]. *)

Section Morph.

Variable lower : str -> str.
Variable is_correct_word : str -> bool.
Variable tag_collocation : str -> list item.
Variable distance : str -> str -> float32.

(** *** Comparators and dedup engine *)

(** The argument of [is_identical_word]: a string, a [TaggedWord], or a
    value of another type. *)
Inductive word_arg :=
| WStr (s : str)
| WTagged (w : TaggedWord)
| WOther.

Definition is_identical_word (word1 word2 : word_arg) : result bool :=
  match word1, word2 with
  | WStr s1, WStr s2 =>
      if Str.eqb s1 [] || Str.eqb s2 [] then Ok false
      else if (1 <=? Str.count space s1) || (1 <=? Str.count space s2)
      then Raise ValueError
      else if negb (is_correct_word s1 && is_correct_word s2)
      then Raise ValueError
      else
        let s1 := lower s1 in
        let s2 := lower s2 in
        let result := Str.eqb s1 s2 in
        if negb result then
          word1_parse_info <- index0 (tag_collocation s1) ;;
          word2_parse_info <- index0 (tag_collocation s2) ;;
          n1 <- attr_normalized word1_parse_info ;;
          n2 <- attr_normalized word2_parse_info ;;
          Ok (Str.eqb n1 n2)
        else Ok result
  | WTagged w1, WTagged w2 =>
      let result := TaggedWord_eqb w1 w2 in
      if negb result then Ok (Str.eqb (normalized w1) (normalized w2))
      else Ok result
  | _, _ => Raise TypeError
  end.

(** The positional loop of [is_identical_collocation]: it stops at the
    first pair that differs; the second sequence is indexed with the
    positions of the first. *)
Fixpoint word_loop (c1 c2 : list item) : result bool :=
  match c1 with
  | [] => Ok true
  | x :: c1' =>
      w1 <- attr_word x ;;
      y <- index0 c2 ;;
      w2 <- attr_word y ;;
      same <- is_identical_word (WStr w1) (WStr w2) ;;
      if same then word_loop c1' (tl c2) else Ok false
  end.

Definition is_identical_collocation (collocation1 collocation2 : str)
  : result bool :=
  let words_coll1 := Str.split collocation1 in
  let words_coll2 := Str.split collocation2 in
  if (length words_coll1 <=? 1) || (length words_coll2 <=? 1)
  then Raise ValueError
  else
    let val_check := map is_correct_word (words_coll1 ++ words_coll2) in
    if existsb negb val_check then Raise ValueError
    else if Str.eqb collocation1 collocation2 then Ok true
    else
      let word_count_check := length words_coll1 =? length words_coll2 in
      if negb word_count_check then Ok false
      else
        let collocation1_tagged := tag_collocation collocation1 in
        let collocation2_tagged := tag_collocation collocation2 in
        main_word_1 <- get_main_word collocation1_tagged ;;
        main_word_2 <- get_main_word collocation2_tagged ;;
        same <- is_identical_word (WStr main_word_1) (WStr main_word_2) ;;
        if negb same then Ok false
        else word_loop collocation1_tagged collocation2_tagged.

(** The positional loop of [is_identical_collocation_q], on lemmas. *)
Fixpoint normalized_loop (c1 c2 : list item) : result bool :=
  match c1 with
  | [] => Ok true
  | x :: c1' =>
      n1 <- attr_normalized x ;;
      y <- index0 c2 ;;
      n2 <- attr_normalized y ;;
      if Str.eqb n1 n2 then normalized_loop c1' (tl c2) else Ok false
  end.

Definition is_identical_collocation_q (collocation1 collocation2 : list item)
  : result bool :=
  if (length collocation1 <? 1) || (length collocation2 <? 1)
  then Raise ValueError
  else if items_eqb collocation1 collocation2 then Ok true
  else if negb (length collocation1 =? length collocation2) then Ok false
  else
    main_word_1 <- get_main_word collocation1 ;;
    main_word_2 <- get_main_word collocation2 ;;
    comparison_result <-
      except_ValueError
        (is_identical_word (WStr main_word_1) (WStr main_word_2)) false ;;
    if negb comparison_result then Ok false
    else normalized_loop collocation1 collocation2.

(** [binary_identity_check]. The recursion is on halves of the list, so it
    is bounded by [depth]: [None] says that the calls nested deeper than
    [depth] without returning. [middle_index] is [int(len(l) / 2)]. *)
Fixpoint binary_identity_check (depth : nat) (collocation : list item)
  (collocation_list : list (Z * list item))
  : option (result (list (Z * bool))) :=
  match depth with
  | O => None
  | S depth' =>
      match collocation_list with
      | [tmp] =>
          Some (b <- is_identical_collocation_q collocation (snd tmp) ;;
                Ok [(fst tmp, b)])
      | _ =>
          let middle_index := length collocation_list / 2 in
          let first_half := firstn middle_index collocation_list in
          let second_half := skipn middle_index collocation_list in
          match binary_identity_check depth' collocation first_half with
          | None => None
          | Some (Raise e) => Some (Raise e)
          | Some (Ok first_result) =>
              match
                binary_identity_check depth' collocation second_half
              with
              | None => None
              | Some (Raise e) => Some (Raise e)
              | Some (Ok second_result) =>
                  Some (Ok ([] ++ first_result ++ second_result))
              end
          end
      end
  end.

(** The direct scan that the comment at the end of
    [binary_identity_check] keeps: the comparator applied to each element
    in input order. *)
Definition linear_identity_scan (collocation : list item)
  (collocation_list : list (Z * list item)) : result (list (Z * bool)) :=
  comprehension
    (fun coll =>
       b <- is_identical_collocation_q collocation (snd coll) ;;
       Ok (fst coll, b))
    collocation_list.

Definition count_includes (depth : nat) (collocation : list item)
  (collocation_list : list (list item))
  : option (result (list (Z * list item))) :=
  match
    binary_identity_check depth collocation (enumerate collocation_list)
  with
  | None => None
  | Some (Raise e) => Some (Raise e)
  | Some (Ok identity_check) =>
      Some (comprehension
              (fun id_tuple : Z * bool =>
                 c <- getitem collocation_list (fst id_tuple) ;;
                 Ok (fst id_tuple, c))
              (filter snd identity_check))
  end.

(** [in_collocation_list_var]: the outcome and the candidate list as the
    call leaves it ([collocation_list.sort()] works in place). *)
Definition in_collocation_list_var (collocation : str)
  (collocation_list : list str)
  : result (bool * option str) * list str :=
  let words_coll := Str.split collocation in
  if length collocation_list =? 0 then (Ok (false, None), collocation_list)
  else
    let val_check := map is_correct_word words_coll in
    let val_check_coll :=
      map (fun coll => negb (existsb negb (map is_correct_word (Str.split coll))))
          collocation_list in
    if existsb negb val_check || existsb negb val_check_coll
    then (Raise ValueError, collocation_list)
    else
      let flag := Str.mem collocation collocation_list in
      let collocation_list := Str.sort collocation_list in
      if negb flag then
        (identity_check <-
           comprehension (is_identical_collocation collocation)
             collocation_list ;;
         let flag := existsb id identity_check in
         if flag then
           let found_index := Z.of_nat (index_True identity_check) in
           found <- getitem collocation_list found_index ;;
           Ok (flag, Some found)
         else Ok (flag, None),
         collocation_list)
      else (Ok (flag, None), collocation_list).

(** A valid single alphabetic word: not empty, no space inside, accepted
    by [is_correct_word]; these are the three guards of the string branch
    of [is_identical_word]. *)
Definition valid_word (w : str) : bool :=
  negb (Str.eqb w []) && (Str.count space w =? 0) && is_correct_word w.

(** Some token of the query, or of a candidate, is not alphabetic. *)
Definition bad_token (q : str) (l : list str) : Prop :=
  (exists tok, In tok (Str.split q) /\ is_correct_word tok = false)
  \/ (exists coll tok, In coll l /\ In tok (Str.split coll)
                       /\ is_correct_word tok = false).

(** *** Containment: longer terms *)

(** The sub-phrases of a longer candidate that have the word count of the
    short one. *)
Definition possible_identic_lines (line gram : Collocation) : list str :=
  filter
    (fun substr =>
       (Z.of_nat (length (Str.split_on space substr)) =? wordcount line)%Z)
    (iterate (make_substrs (collocation gram))).

(** The comparisons made for one longer candidate, inside [try]. *)
Definition id_check (line gram : Collocation) (dictionary : list TaggedWord)
  : result (list bool) :=
  let tagged_line := assign_tags (PColl line) dictionary in
  let tagged_possible_identic_lines :=
    map (fun l => assign_tags (PStr l) dictionary)
        (possible_identic_lines line gram) in
  comprehension
    (fun l => is_identical_collocation_q (map Tagged tagged_line) (map Tagged l))
    tagged_possible_identic_lines.

(** The loop over the longer candidates; [longer_terms] is the list built
    so far. An exception inside [try] goes to [continue]. *)
Fixpoint longer_terms_loop (line : Collocation)
  (longer_grams : list Collocation) (dictionary : list TaggedWord)
  (longer_terms : list Collocation) : list Collocation :=
  match longer_grams with
  | [] => longer_terms
  | gram :: rest =>
      match id_check line gram dictionary with
      | Raise _ => longer_terms_loop line rest dictionary longer_terms
      | Ok checks =>
          if existsb id checks
          then longer_terms_loop line rest dictionary (longer_terms ++ [gram])
          else longer_terms_loop line rest dictionary longer_terms
      end
  end.

Definition get_longer_terms (line : Collocation)
  (longer_grams : list Collocation) (dictionary : list TaggedWord)
  : list Collocation :=
  longer_terms_loop line longer_grams dictionary [].

(** The comparison of the short candidate with one sub-phrase. *)
Definition compare_substr (line : Collocation) (dictionary : list TaggedWord)
  (substr : str) : result bool :=
  is_identical_collocation_q (map Tagged (assign_tags (PColl line) dictionary))
            (map Tagged (assign_tags (PStr substr) dictionary)).

(** A longer candidate qualifies when every comparison of its sub-phrases
    returns and one of them returns [True]. *)
Definition qualifies (line : Collocation) (dictionary : list TaggedWord)
  (gram : Collocation) : Prop :=
  (forall substr, In substr (possible_identic_lines line gram) ->
                  exists b, compare_substr line dictionary substr = Ok b)
  /\ (exists substr, In substr (possible_identic_lines line gram)
                     /\ compare_substr line dictionary substr = Ok true).

(** What the loop keeps of one candidate. *)
Definition keeps (line : Collocation) (dictionary : list TaggedWord)
  (gram : Collocation) : bool :=
  match id_check line gram dictionary with
  | Ok checks => existsb id checks
  | Raise _ => false
  end.

(** *** Normal-form resolver *)

(** [DIST_THRESHOLD = 0.15]: a Python float, the binary64 value nearest
    to it. *)
Definition DIST_THRESHOLD : float := 0x1.3333333333333p-3%float.

(** [e - min(distances) <= DIST_THRESHOLD]. Both operands of the
    subtraction are [float32] elements of the array, so the difference is
    rounded to binary32; the comparison of a [float32] scalar with a
    Python float is made in binary64, on the exact value of the
    difference. *)
Definition within_threshold (e least : float32) : bool :=
  PrimFloat.leb (float32_to_float (float32_sub e least)) DIST_THRESHOLD.

(** The first statement of [get_collocation_normal_form]: when the
    lower-cased pseudo-normal form holds the letter [yo], it is replaced
    by [ye] in the head word, in the pseudo-normal form and in the text of
    every candidate, which are changed in place. The result is
    (pseudo-normal form, candidates, head word). *)
Definition normalize_yo (pnormal_form : str) (collocations : list Collocation)
  (main_word : str) : str * list Collocation * str :=
  if Str.contains [yo] (lower pnormal_form) then
    (Str.replace yo ye pnormal_form,
     map (fun c => set_collocation c (Str.replace yo ye (collocation c)))
         collocations,
     Str.replace yo ye main_word)
  else (pnormal_form, collocations, main_word).

(** [min(distances)] on a non-empty sequence: the first least value. The
    empty case is not reached, as [min] is evaluated once per element. *)
Definition float_min (distances : list float32) : float32 :=
  match distances with
  | [] => S754_infinity false
  | d :: ds => fold_left (fun m x => if float32_ltb x m then x else m) ds d
  end.

(** [sorted(indices, key=itemgetter(1))]: a stable insertion sort. *)
Fixpoint insert_by_distance (x : Z * float32) (l : list (Z * float32))
  : list (Z * float32) :=
  match l with
  | [] => [x]
  | y :: l' =>
      if float32_ltb (snd y) (snd x) then y :: insert_by_distance x l'
      else x :: y :: l'
  end.

Definition sorted_by_distance (l : list (Z * float32))
  : list (Z * float32) :=
  fold_right insert_by_distance [] l.

(** The rest of [get_collocation_normal_form]. An index [i] comes from
    [enumerate(distances)], which has the length of [collocations], so
    [collocations[i]] is always there. *)
Definition select_index (pnormal_form : str) (collocations : list Collocation)
  (main_word : str) : Z :=
  let forms := map collocation collocations in
  let distances := map (distance pnormal_form) forms in
  let indices :=
    filter
      (fun ie : Z * float32 =>
         within_threshold (snd ie) (float_min distances)
         && match getitem collocations (fst ie) with
            | Ok c => Str.contains main_word (collocation c)
            | Raise _ => false
            end)
      (enumerate distances) in
  let indices :=
    if 1 <? length indices then sorted_by_distance indices else indices in
  match indices with
  | [] => (-1)%Z
  | index :: _ => fst index
  end.

(** [get_collocation_normal_form]: the index, or -1, and the candidates
    as the call leaves them. *)
Definition get_collocation_normal_form (pnormal_form : str)
  (collocations : list Collocation) (main_word : str)
  : Z * list Collocation :=
  let '(pnormal_form, collocations, main_word) :=
    normalize_yo pnormal_form collocations main_word in
  (select_index pnormal_form collocations main_word, collocations).

Definition replace_yo_in (c : Collocation) : Collocation :=
  set_collocation c (Str.replace yo ye (collocation c)).

(** *** Notions used to state the properties of the comparators *)

(** The lemma that [is_identical_word] reads for a string: the
    [normalized] field of the first element of the tagged, lower-cased
    string, when that element is a [TaggedWord]. *)
Definition lemma_of (s : str) : option str :=
  match tag_collocation (lower s) with
  | Tagged w :: _ => Some (normalized w)
  | _ => None
  end.

(** A phrase that passes the two guards of [is_identical_collocation]: at
    least two tokens, each accepted by [is_correct_word]. *)
Definition valid_phrase (p : str) : bool :=
  (2 <=? length (Str.split p)) && forallb is_correct_word (Str.split p).

(** The candidates that the fast comparator finds identical to the query,
    each with its position, in list order; the first exception of a
    comparison, if any. *)
Definition matching_candidates (collocation : list item)
  (collocation_list : list (list item)) : result (list (Z * list item)) :=
  bs <- comprehension (is_identical_collocation_q collocation)
          collocation_list ;;
  Ok (map fst (filter snd (combine (enumerate collocation_list) bs))).

(** * Properties *)

(** ** Python strings *)

Lemma str_eqb_refl (a : str) : Str.eqb a a = true.
Proof.
  induction a as [|x a IH]; simpl; [reflexivity|].
  now rewrite N.eqb_refl, IH.
Qed.

Lemma str_eqb_eq (a b : str) : Str.eqb a b = true <-> a = b.
Proof.
  revert b; induction a as [|x a IH]; intros [|y b]; simpl; split;
    try discriminate; try reflexivity.
  - intros H. apply andb_true_iff in H as [H1 H2].
    apply N.eqb_eq in H1. apply IH in H2. now subst.
  - intros H. injection H as -> ->. now rewrite N.eqb_refl, str_eqb_refl.
Qed.

Lemma str_eqb_sym (a b : str) : Str.eqb a b = Str.eqb b a.
Proof.
  destruct (Str.eqb a b) eqn:E1, (Str.eqb b a) eqn:E2; try reflexivity.
  - apply str_eqb_eq in E1. subst. now rewrite str_eqb_refl in E2.
  - apply str_eqb_eq in E2. subst. now rewrite str_eqb_refl in E1.
Qed.

Lemma str_replace_idem (old new : char) (s : str) :
  old <> new -> Str.replace old new (Str.replace old new s) = Str.replace old new s.
Proof.
  intros Hne. unfold Str.replace. rewrite map_map. apply map_ext.
  intros c. destruct (c =? old)%N eqn:E; [|now rewrite E].
  destruct (new =? old)%N eqn:E'; [|reflexivity].
  apply N.eqb_eq in E'. congruence.
Qed.

(** ** Dedup traversal *)

Lemma comprehension_app {A B : Type} (f : A -> result B) (l1 l2 : list A) :
  comprehension f (l1 ++ l2)
  = (r1 <- comprehension f l1 ;; r2 <- comprehension f l2 ;; Ok (r1 ++ r2)).
Proof.
  induction l1 as [|a l1 IH]; simpl.
  - destruct (comprehension f l2); reflexivity.
  - destruct (f a) as [b|e]; simpl; [|reflexivity].
    rewrite IH.
    destruct (comprehension f l1) as [r1|e]; simpl; [|reflexivity].
    destruct (comprehension f l2) as [r2|e]; reflexivity.
Qed.

Lemma half_bounds (n : nat) : 2 <= n -> 1 <= n / 2 /\ n / 2 < n.
Proof.
  intros H. split.
  - apply (Nat.div_le_lower_bound n 2 1); lia.
  - apply Nat.div_lt; lia.
Qed.

(** One unfolding of the traversal on a list that is not a singleton. *)
Lemma binary_identity_check_split (depth : nat) (q : list item)
  (l : list (Z * list item)) :
  length l <> 1 ->
  binary_identity_check (S depth) q l
  = match binary_identity_check depth q (firstn (length l / 2) l) with
    | None => None
    | Some (Raise e) => Some (Raise e)
    | Some (Ok first_result) =>
        match binary_identity_check depth q (skipn (length l / 2) l) with
        | None => None
        | Some (Raise e) => Some (Raise e)
        | Some (Ok second_result) => Some (Ok (first_result ++ second_result))
        end
    end.
Proof.
  intros H. destruct l as [|a [|b l]]; simpl in H; try lia; reflexivity.
Qed.

(** C2. For every query and every non-empty indexed candidate list, the
    recursive traversal, given a depth budget of at least the length of
    the list, returns what the direct scan returns: the same
    (index, boolean) pairs in the same order, or the same exception. *)
Theorem binary_identity_check_is_linear_scan (q : list item)
  (l : list (Z * list item)) (depth : nat) :
  l <> [] -> length l <= depth ->
  binary_identity_check depth q l = Some (linear_identity_scan q l).
Proof.
  revert l. induction depth as [|depth IH]; intros l Hne Hlen.
  - destruct l; [congruence | simpl in Hlen; lia].
  - destruct (Nat.eq_dec (length l) 1) as [H1|H1].
    + destruct l as [|tmp [|? ?]]; simpl in H1; try lia.
      unfold linear_identity_scan. simpl.
      destruct (is_identical_collocation_q q (snd tmp)); reflexivity.
    + assert (H2 : 2 <= length l) by (destruct l; [congruence | simpl in *; lia]).
      destruct (half_bounds H2) as [Hlo Hhi].
      rewrite binary_identity_check_split by exact H1.
      set (m := length l / 2) in *.
      assert (Hf : length (firstn m l) = m) by (rewrite length_firstn; lia).
      assert (Hs : length (skipn m l) = length l - m) by apply length_skipn.
      rewrite (IH (firstn m l)); [| intros E; rewrite E in Hf; simpl in Hf; lia | lia].
      rewrite (IH (skipn m l)); [| intros E; rewrite E in Hs; simpl in Hs; lia | lia].
      assert (Hl : linear_identity_scan q l
                   = linear_identity_scan q (firstn m l ++ skipn m l))
        by now rewrite firstn_skipn.
      rewrite Hl. unfold linear_identity_scan.
      rewrite comprehension_app.
      destruct (comprehension _ (firstn m l)) as [r1|e]; simpl; [|reflexivity].
      destruct (comprehension _ (skipn m l)) as [r2|e]; reflexivity.
Qed.

(** C8. On the empty candidate list the traversal never returns: the list
    is not a singleton, both halves are empty again, and the calls nest
    beyond every depth budget. [count_includes] hands an empty candidate
    list on as it is, and does not return either. *)
Theorem binary_identity_check_empty_diverges (q : list item) (depth : nat) :
  binary_identity_check depth q [] = None
  /\ count_includes depth q [] = None.
Proof.
  assert (H : forall d, binary_identity_check d q [] = None).
  { induction d as [|d IH]; [reflexivity|].
    rewrite binary_identity_check_split by (simpl; lia).
    simpl. now rewrite IH. }
  split; [apply H|].
  unfold count_includes. simpl. now rewrite H.
Qed.

(** ** Word comparator *)

Lemma is_identical_word_sym (x y : word_arg) :
  is_identical_word x y = is_identical_word y x.
Proof.
  destruct x as [s1|w1|], y as [s2|w2|]; try reflexivity.
  - unfold is_identical_word.
    rewrite (orb_comm (Str.eqb s1 []) (Str.eqb s2 [])).
    destruct (Str.eqb s2 [] || Str.eqb s1 []); [reflexivity|].
    rewrite (orb_comm (1 <=? Str.count space s1)).
    destruct ((1 <=? Str.count space s2) || (1 <=? Str.count space s1));
      [reflexivity|].
    rewrite (andb_comm (is_correct_word s1)).
    destruct (is_correct_word s2 && is_correct_word s1); [|reflexivity].
    cbn [negb]. rewrite (str_eqb_sym (lower s1) (lower s2)).
    destruct (Str.eqb (lower s2) (lower s1)); [reflexivity|]. cbn [negb].
    destruct (tag_collocation (lower s1)) as [|i1 t1],
             (tag_collocation (lower s2)) as [|i2 t2]; try reflexivity.
    destruct i1 as [a| |], i2 as [b| |]; try reflexivity.
    cbn. now rewrite str_eqb_sym.
  - unfold is_identical_word, TaggedWord_eqb.
    rewrite (str_eqb_sym (word w1)), (str_eqb_sym (normalized w1)).
    assert (Hp : forall a b, PartOfSpeech_eqb a b = PartOfSpeech_eqb b a)
      by (intros [] []; cbn; try reflexivity; apply Nat.eqb_sym).
    assert (Hc : forall a b, Case_eqb a b = Case_eqb b a)
      by (intros [] []; cbn; try reflexivity; apply Nat.eqb_sym).
    now rewrite (Hp (pos w1)), (Hc (case w1)).
Qed.

(** C9. On valid single alphabetic words the word comparator is reflexive,
    with the answer [True], and symmetric: both orders give the same
    answer, or raise the same exception. *)
Theorem is_identical_word_reflexive_symmetric (a b : str) :
  valid_word a = true -> valid_word b = true ->
  is_identical_word (WStr a) (WStr a) = Ok true
  /\ is_identical_word (WStr a) (WStr b) = is_identical_word (WStr b) (WStr a).
Proof.
  intros Ha Hb. split; [|apply is_identical_word_sym].
  unfold valid_word in Ha.
  apply andb_true_iff in Ha as [Ha Hcorrect].
  apply andb_true_iff in Ha as [Hne Hsp].
  apply negb_true_iff in Hne. apply Nat.eqb_eq in Hsp.
  unfold is_identical_word.
  rewrite Hne, Hsp, Hcorrect. cbn.
  now rewrite str_eqb_refl.
Qed.

(** ** Collocation comparators *)

Lemma PartOfSpeech_eqb_refl (p : PartOfSpeech) : PartOfSpeech_eqb p p = true.
Proof. destruct p; cbn; try reflexivity. apply Nat.eqb_refl. Qed.

Lemma Case_eqb_refl (c : Case) : Case_eqb c c = true.
Proof. destruct c; cbn; try reflexivity. apply Nat.eqb_refl. Qed.

Lemma item_eqb_refl (x : item) : item_eqb x x = true.
Proof.
  destruct x as [w|s|]; cbn; [|apply N.eqb_refl|reflexivity].
  unfold TaggedWord_eqb.
  now rewrite !str_eqb_refl, PartOfSpeech_eqb_refl, Case_eqb_refl.
Qed.

(** C5. The fast comparator rejects only empty sequences: on a sequence
    of one element, compared with itself, it answers [True], where the
    validating comparator raises a value error on a one-word string. *)
Theorem is_identical_collocation_q_accepts_one_element (x : item) :
  is_identical_collocation_q [x] [x] = Ok true
  /\ is_identical_collocation_q [] [x] = Raise ValueError
  /\ is_identical_collocation (u "огонь") (u "огонь") = Raise ValueError.
Proof.
  split; [|split].
  - unfold is_identical_collocation_q. cbn. now rewrite item_eqb_refl.
  - reflexivity.
  - vm_compute. reflexivity.
Qed.

(** A value error of the head-word comparison does not leave the fast
    comparator: the answer is [False]. *)
Lemma is_identical_collocation_q_swallows (c1 c2 : list item) (m1 m2 : str) :
  1 <= length c1 -> length c1 = length c2 ->
  items_eqb c1 c2 = false ->
  get_main_word c1 = Ok m1 -> get_main_word c2 = Ok m2 ->
  is_identical_word (WStr m1) (WStr m2) = Raise ValueError ->
  is_identical_collocation_q c1 c2 = Ok false.
Proof.
  intros H1 Hlen Hne Hm1 Hm2 Herr.
  assert (E : (length c1 <? 1) = false) by (apply Nat.ltb_ge; exact H1).
  unfold is_identical_collocation_q.
  rewrite <- Hlen, E, Hne, Nat.eqb_refl, Hm1, Hm2. cbn [bind orb negb].
  rewrite Herr. reflexivity.
Qed.

(** ** Membership check *)

Lemma existsb_negb_map (ws : list str) :
  existsb negb (map is_correct_word ws) = true
  <-> exists tok, In tok ws /\ is_correct_word tok = false.
Proof.
  rewrite existsb_exists. split.
  - intros [b [Hin Hb]]. apply in_map_iff in Hin as [tok [Heq Hin]].
    exists tok. split; [exact Hin|]. subst b. now apply negb_true_iff.
  - intros [tok [Hin Hf]]. exists (is_correct_word tok). split.
    + now apply in_map.
    + now rewrite Hf.
Qed.

Lemma bad_token_checked (q : str) (l : list str) :
  bad_token q l ->
  existsb negb (map is_correct_word (Str.split q))
  || existsb negb
       (map (fun coll =>
               negb (existsb negb (map is_correct_word (Str.split coll)))) l)
  = true.
Proof.
  intros [Hq | [coll [tok [Hin [Htok Hf]]]]]; apply orb_true_iff.
  - left. now apply existsb_negb_map.
  - right. apply existsb_exists.
    exists (negb (existsb negb (map is_correct_word (Str.split coll)))).
    split.
    + apply in_map_iff. now exists coll.
    + assert (H : existsb negb (map is_correct_word (Str.split coll)) = true)
        by (apply existsb_negb_map; now exists tok).
      now rewrite H.
Qed.

(** C7, amended. On an empty candidate list the membership check answers
    "not found" whatever the query holds; on a non-empty one it raises a
    value error whenever a token of the query or of a candidate is not
    alphabetic, and leaves the list as it was. *)
Theorem in_collocation_list_var_guards (q : str) (l : list str) :
  in_collocation_list_var q [] = (Ok (false, None), [])
  /\ (l <> [] -> bad_token q l ->
      in_collocation_list_var q l = (Raise ValueError, l)).
Proof.
  split; [reflexivity|].
  intros Hne Hbad. unfold in_collocation_list_var.
  destruct l as [|c l']; [congruence|].
  cbn [length Nat.eqb].
  now rewrite (bad_token_checked Hbad).
Qed.

(** ** Head-word selector *)

Lemma as_tagged_map (ws : list TaggedWord) : as_tagged (map Tagged ws) = Some ws.
Proof.
  induction ws as [|w ws IH]; cbn; [reflexivity|]. now rewrite IH.
Qed.

Lemma case_loop_find (ws : list TaggedWord) (r : str) :
  case_loop ws r
  = match find is_nom_or_acc ws with Some w => word w | None => r end.
Proof.
  induction ws as [|w ws IH]; cbn; [reflexivity|].
  destruct (is_nom_or_acc w); [reflexivity | exact IH].
Qed.

Lemma filter_head_find {A : Type} (f : A -> bool) (l : list A) :
  find f l = match filter f l with x :: _ => Some x | [] => None end.
Proof.
  induction l as [|a l IH]; cbn; [reflexivity|].
  destruct (f a); [reflexivity | exact IH].
Qed.

Lemma noun_eqb_is_noun (w : TaggedWord) :
  PartOfSpeech_eqb noun (pos w) = is_noun w.
Proof. unfold is_noun. destruct (pos w); reflexivity. Qed.

Lemma pos_count_noun (ws : list TaggedWord) :
  pos_count noun (map pos ws) = length (filter is_noun ws).
Proof.
  unfold pos_count. induction ws as [|w ws IH]; cbn [map filter]; [reflexivity|].
  rewrite noun_eqb_is_noun. destruct (is_noun w); cbn [length]; now rewrite IH.
Qed.

Lemma pos_in_noun (ws : list TaggedWord) :
  pos_in noun (map pos ws) = existsb is_noun ws.
Proof.
  unfold pos_in. induction ws as [|w ws IH]; cbn [map existsb]; [reflexivity|].
  now rewrite noun_eqb_is_noun, IH.
Qed.

Lemma get_main_word_not_one_noun (ws : list TaggedWord) :
  pos_in verb (map pos ws) && pos_in adverb (map pos ws) = false ->
  pos_count noun (map pos ws) <> 1 ->
  get_main_word (map Tagged ws) = Ok (preferred_word ws).
Proof.
  intros Hva Hn. unfold get_main_word. rewrite as_tagged_map.
  destruct ws as [|w0 ws']; [reflexivity|]. set (ws := w0 :: ws') in *.
  cbn [length Nat.eqb]. unfold get_main_word_tagged. rewrite Hva. cbn [negb].
  assert (H1 : (length ws =? 1) && pos_in noun (map pos ws) = false).
  { destruct (length ws =? 1) eqn:E; [|reflexivity]. cbn [andb].
    apply Nat.eqb_eq in E. destruct ws' as [|? ?]; [|discriminate E].
    rewrite pos_count_noun in Hn. rewrite pos_in_noun. subst ws. cbn in *.
    destruct (is_noun w0); [cbn in Hn; lia | reflexivity]. }
  rewrite H1. apply Nat.eqb_neq in Hn. rewrite Hn.
  unfold preferred_word, first_noun_word.
  rewrite case_loop_find, (filter_head_find is_noun).
  destruct (find is_nom_or_acc ws) as [w|].
  - destruct (Str.eqb (word w) []) eqn:E; [|reflexivity].
    destruct (filter is_noun ws); [|reflexivity].
    apply str_eqb_eq in E. now rewrite E.
  - cbn [Str.eqb]. destruct (filter is_noun ws); reflexivity.
Qed.

(** C1, amended. A phrase with both a verb and an adverb raises a value
    error. Otherwise, with two or more nouns the head is the first word in
    the nominative or accusative, and the first noun when no word
    qualifies or the qualifying surface form is empty; with no noun at all
    the head is again the first word in the nominative or accusative, and
    the empty string only when no word is so tagged. *)
Theorem get_main_word_selection (ws : list TaggedWord) :
  let c := map Tagged ws in
  let pos_l := map pos ws in
  (pos_in verb pos_l && pos_in adverb pos_l = true ->
   get_main_word c = Raise ValueError)
  /\ (pos_in verb pos_l && pos_in adverb pos_l = false ->
      (2 <= pos_count noun pos_l ->
       get_main_word c = Ok (preferred_word ws)
       /\ exists n, find is_noun ws = Some n)
      /\ (pos_count noun pos_l = 0 ->
          get_main_word c
          = Ok (match find is_nom_or_acc ws with
                | Some w => word w
                | None => []
                end))).
Proof.
  cbv zeta. split; [|intros Hva; split].
  - intros Hva. unfold get_main_word. rewrite as_tagged_map.
    destruct ws as [|w0 ws']; [discriminate Hva|]. cbn [length Nat.eqb].
    unfold get_main_word_tagged. now rewrite Hva.
  - intros H2. split.
    + apply get_main_word_not_one_noun; [exact Hva | lia].
    + rewrite pos_count_noun in H2. rewrite filter_head_find.
      destruct (filter is_noun ws) as [|n ?]; [cbn in H2; lia | now exists n].
  - intros H0. rewrite get_main_word_not_one_noun; [|exact Hva | lia].
    rewrite pos_count_noun in H0.
    unfold preferred_word, first_noun_word. rewrite (filter_head_find is_noun).
    destruct (filter is_noun ws); [|discriminate H0].
    destruct (find is_nom_or_acc ws) as [w|]; [|reflexivity].
    destruct (Str.eqb (word w) []) eqn:E; [|reflexivity].
    apply str_eqb_eq in E. now rewrite E.
Qed.

(** ** Containment: sub-phrases *)

Lemma sorted_app {A : Type} (R : A -> A -> Prop) (l1 l2 : list A) :
  StronglySorted R l1 -> StronglySorted R l2 ->
  (forall x y, In x l1 -> In y l2 -> R x y) ->
  StronglySorted R (l1 ++ l2).
Proof.
  induction 1 as [|a l1 Hs IH Ha]; intros H2 Hx; cbn; [exact H2|].
  constructor.
  - apply IH; [exact H2|]. intros x y Hin. apply Hx. now right.
  - apply Forall_app. split; [exact Ha|].
    apply Forall_forall. intros y Hy. apply Hx; [now left | exact Hy].
Qed.

Lemma seq_sorted (a m : nat) : StronglySorted lt (seq a m).
Proof.
  revert a. induction m as [|m IH]; intros a; cbn; constructor.
  - apply IH.
  - apply Forall_forall. intros y Hy. apply in_seq in Hy. lia.
Qed.

Lemma rev_seq_sorted (a m : nat) : StronglySorted gt (rev (seq a m)).
Proof.
  induction m as [|m IH]; [constructor|].
  rewrite seq_S, rev_app_distr. cbn. constructor; [exact IH|].
  apply Forall_forall. intros y Hy. apply in_rev, in_seq in Hy. lia.
Qed.

Lemma row_sorted (k c : nat) : StronglySorted before (map (pair k) (seq 0 c)).
Proof.
  generalize 0. induction c as [|c IH]; intros a; cbn; constructor.
  - apply IH.
  - apply Forall_forall. intros y Hy.
    apply in_map_iff in Hy as [j [<- Hj]]. apply in_seq in Hj.
    right. cbn. lia.
Qed.

Lemma rows_sorted (m : nat -> nat) (ks : list nat) :
  StronglySorted gt ks ->
  StronglySorted before (flat_map (fun k => map (pair k) (seq 0 (m k))) ks).
Proof.
  induction 1 as [|k ks Hs IH Hk]; cbn; [constructor|].
  apply sorted_app; [apply row_sorted | exact IH |].
  intros x y Hx Hy.
  apply in_map_iff in Hx as [j [<- _]].
  apply in_flat_map in Hy as [k' [Hk' Hy]].
  apply in_map_iff in Hy as [j' [<- _]].
  rewrite Forall_forall in Hk. specialize (Hk k' Hk').
  left. cbn. lia.
Qed.

Lemma visits_sorted (n : nat) : StronglySorted before (visits n).
Proof.
  unfold visits, range, range_down.
  apply (rows_sorted (fun k => n - k + 1 - 0)), rev_seq_sorted.
Qed.

Lemma visits_in (n k j : nat) :
  In (k, j) (visits n) <-> 2 <= k /\ k < n /\ j + k <= n.
Proof.
  unfold visits, range, range_down. rewrite in_flat_map. split.
  - intros [k' [Hk' Hin]]. apply in_rev, in_seq in Hk'.
    apply in_map_iff in Hin as [j' [E Hj']]. apply in_seq in Hj'.
    injection E as -> ->. lia.
  - intros H. exists k. split.
    + rewrite <- in_rev, in_seq. lia.
    + apply in_map. rewrite in_seq. lia.
Qed.

Lemma make_substrs_visits (collocation : str) :
  collocation <> [] ->
  make_substrs collocation
  = AList (map (sub_phrase (Str.split collocation))
               (visits (length (Str.split collocation)))).
Proof.
  intros Hne. unfold make_substrs.
  destruct (Str.eqb collocation []) eqn:E;
    [apply str_eqb_eq in E; congruence|].
  f_equal. unfold visits.
  generalize (range_down (length (Str.split collocation) - 1) 1) as ks.
  induction ks as [|k ks IH]; [reflexivity|].
  cbn [flat_map]. rewrite map_app, map_map, IH. f_equal.
  apply map_ext. intros j. unfold sub_phrase, slice. cbn [fst snd].
  now replace (j + k - j) with k by lia.
Qed.

(** C4. For a non-empty phrase of [n] words [make_substrs] returns the
    contiguous sub-phrases given by a list of (length, start) pairs that
    holds exactly the pairs with length from 2 to [n - 1] that fit in the
    phrase, ordered by decreasing length and then by increasing start; so
    the full phrase and the single words are left out. For a phrase of
    fewer than two words, and for the empty string, iterating over the
    result yields nothing. *)
Theorem make_substrs_spec (collocation : str) :
  let words := Str.split collocation in
  let n := length words in
  (collocation <> [] ->
   exists pairs,
     make_substrs collocation = AList (map (sub_phrase words) pairs)
     /\ (forall k j, In (k, j) pairs <-> 2 <= k /\ k <= n - 1 /\ j + k <= n)
     /\ StronglySorted before pairs)
  /\ (n <= 1 -> iterate (make_substrs collocation) = [])
  /\ make_substrs [] = AStr [].
Proof.
  cbv zeta. split; [|split; [|reflexivity]].
  - intros Hne. exists (visits (length (Str.split collocation))).
    split; [now apply make_substrs_visits|]. split.
    + intros k j. rewrite visits_in. lia.
    + apply visits_sorted.
  - intros Hn. destruct collocation as [|c s]; [reflexivity|].
    rewrite make_substrs_visits by discriminate. cbn [iterate].
    assert (Hv : visits (length (Str.split (c :: s))) = []).
    { destruct (visits _) as [|[k j] r] eqn:E; [reflexivity|].
      assert (Hin : In (k, j) (visits (length (Str.split (c :: s)))))
        by (rewrite E; now left).
      apply visits_in in Hin. lia. }
    now rewrite Hv.
Qed.

(** ** Containment: dictionary tagging *)

Lemma mem_In (x : str) (l : list str) : Str.mem x l = true <-> In x l.
Proof.
  unfold Str.mem. rewrite existsb_exists. split.
  - intros [y [Hin E]]. apply str_eqb_eq in E. now subst.
  - intros Hin. exists x. split; [exact Hin | apply str_eqb_refl].
Qed.

(** C10. [assign_tags] keeps, in dictionary order, exactly the dictionary
    entries whose surface word is one of the words of the phrase; a word
    of the phrase that no entry spells is not in the result. So the
    result can differ from the phrase in length and in word order: for
    the phrase "порядков боевых построения" the documented dictionary
    gives the three words in the opposite order, and for
    "боевых порядков армии" only two words. *)
Theorem assign_tags_dictionary_order :
  (forall phrase dictionary,
      (exists keep,
          assign_tags phrase dictionary = filter keep dictionary
          /\ forall w, keep w = true <-> In (word w) (raw_words_of phrase))
      /\ (forall x, In x (raw_words_of phrase) ->
                    ~ In x (map word dictionary) ->
                    ~ In x (map word (assign_tags phrase dictionary))))
  /\ map word (assign_tags (PStr (u "порядков боевых построения")) doc_dictionary)
     = rev (raw_words_of (PStr (u "порядков боевых построения")))
  /\ length (assign_tags (PStr (u "боевых порядков армии")) doc_dictionary) = 2
  /\ length (raw_words_of (PStr (u "боевых порядков армии"))) = 3.
Proof.
  split; [|repeat split; vm_compute; reflexivity].
  intros phrase dictionary. split.
  - exists (fun w => Str.mem (word w) (raw_words_of phrase)).
    split; [reflexivity|]. intros w. apply mem_In.
  - intros x _ Hout Hin. apply Hout.
    apply in_map_iff in Hin as [w [E Hw]].
    apply filter_In in Hw as [Hw _].
    apply in_map_iff. now exists w.
Qed.

(** ** Containment: longer terms *)

Lemma comprehension_Ok {A B : Type} (f : A -> result B) (l : list A)
  (bs : list B) :
  comprehension f l = Ok bs ->
  (forall a, In a l -> exists b, f a = Ok b)
  /\ (forall b, In b bs <-> exists a, In a l /\ f a = Ok b).
Proof.
  revert bs. induction l as [|a l IH]; intros bs H; cbn in H.
  - injection H as <-. split; [intros ? []|].
    intros b. split; [intros [] | intros [? [[] _]]].
  - destruct (f a) as [b0|e] eqn:Ea; [|discriminate H]. cbn in H.
    destruct (comprehension f l) as [bs'|e] eqn:El; [|discriminate H].
    cbn in H. injection H as <-.
    destruct (IH bs' eq_refl) as [IH1 IH2]. split.
    + intros x [<-|Hx]; [now exists b0 | now apply IH1].
    + intros b. cbn. rewrite IH2. split.
      * intros [<-|[x [Hx Ex]]]; [exists a; now split; [left|] |].
        exists x. split; [now right | exact Ex].
      * intros [x [[<-|Hx] Ex]]; [left; congruence | right; now exists x].
Qed.

Lemma comprehension_Raise {A B : Type} (f : A -> result B) (l : list A)
  (e : exn) :
  comprehension f l = Raise e -> exists a, In a l /\ f a = Raise e.
Proof.
  induction l as [|a l IH]; cbn; [discriminate|].
  destruct (f a) as [b0|e0] eqn:Ea; cbn.
  - destruct (comprehension f l) as [bs'|e1]; cbn; [discriminate|].
    intros H. injection H as ->.
    destruct (IH eq_refl) as [x [Hx Ex]]. exists x. split; [now right | exact Ex].
  - intros H. injection H as ->. exists a. split; [now left | exact Ea].
Qed.

Lemma id_check_compare (line gram : Collocation) (dictionary : list TaggedWord) :
  id_check line gram dictionary
  = comprehension (compare_substr line dictionary)
                  (possible_identic_lines line gram).
Proof.
  unfold id_check, compare_substr.
  induction (possible_identic_lines line gram) as [|s l IH]; [reflexivity|].
  cbn [map comprehension]. now rewrite IH.
Qed.

Lemma keeps_qualifies (line : Collocation) (dictionary : list TaggedWord)
  (gram : Collocation) :
  keeps line dictionary gram = true <-> qualifies line dictionary gram.
Proof.
  unfold keeps, qualifies. rewrite id_check_compare.
  destruct (comprehension _ _) as [checks|e] eqn:E.
  - destruct (comprehension_Ok _ _ E) as [Hall Hin]. split.
    + intros Hex. split; [exact Hall|].
      apply existsb_exists in Hex as [b [Hb Hid]]. unfold id in Hid. subst b.
      now apply Hin.
    + intros [_ [s [Hs Es]]]. apply existsb_exists. exists true.
      split; [|reflexivity]. apply Hin. now exists s.
  - split; [discriminate|]. intros [Hall _].
    apply comprehension_Raise in E as [s [Hs Es]].
    destruct (Hall s Hs) as [b Eb]. congruence.
Qed.

Lemma longer_terms_loop_filter (line : Collocation)
  (longer_grams : list Collocation) (dictionary : list TaggedWord)
  (longer_terms : list Collocation) :
  longer_terms_loop line longer_grams dictionary longer_terms
  = longer_terms ++ filter (keeps line dictionary) longer_grams.
Proof.
  revert longer_terms.
  induction longer_grams as [|gram rest IH]; intros acc; cbn.
  - now rewrite app_nil_r.
  - unfold keeps at 1.
    destruct (id_check line gram dictionary) as [checks|e]; [|apply IH].
    destruct (existsb id checks); [|apply IH].
    rewrite IH, <- app_assoc. reflexivity.
Qed.

(** C6, amended. [get_longer_terms] always returns, and returns, in input
    order, the longer candidates that qualify: those for which every
    sub-phrase comparison returns and at least one returns [True]. A
    comparison that raises therefore discards its whole longer candidate
    and no other one. *)
Theorem get_longer_terms_per_candidate (line : Collocation)
  (longer_grams : list Collocation) (dictionary : list TaggedWord) :
  exists keep,
    get_longer_terms line longer_grams dictionary = filter keep longer_grams
    /\ forall gram, keep gram = true <-> qualifies line dictionary gram.
Proof.
  exists (keeps line dictionary). split.
  - unfold get_longer_terms. now rewrite longer_terms_loop_filter.
  - apply keeps_qualifies.
Qed.

(** ** Normal-form resolver *)

Lemma yo_ye : yo <> ye.
Proof. discriminate. Qed.

Lemma replace_yo_in_idem (cs : list Collocation) :
  map replace_yo_in (map replace_yo_in cs) = map replace_yo_in cs.
Proof.
  rewrite map_map. apply map_ext. intros c.
  unfold replace_yo_in, set_collocation. cbn [collocation wordcount freq
    pnormal_form llinked coll_id].
  now rewrite (str_replace_idem (collocation c) yo_ye).
Qed.

(** When the lower-cased pseudo-normal form holds [yo], the call goes on
    with the three inputs in which each [yo] is replaced by [ye], and a
    call on these gives the same index and leaves the same candidates. *)
Lemma normalize_yo_triggered (pnormal_form : str)
  (collocations : list Collocation) (main_word : str) :
  Str.contains [yo] (lower pnormal_form) = true ->
  normalize_yo pnormal_form collocations main_word
  = (Str.replace yo ye pnormal_form, map replace_yo_in collocations,
     Str.replace yo ye main_word)
  /\ get_collocation_normal_form pnormal_form collocations main_word
     = get_collocation_normal_form
         (Str.replace yo ye pnormal_form) (map replace_yo_in collocations)
         (Str.replace yo ye main_word).
Proof.
  intros Hyo.
  assert (Hn : normalize_yo pnormal_form collocations main_word
               = (Str.replace yo ye pnormal_form,
                  map replace_yo_in collocations,
                  Str.replace yo ye main_word))
    by (unfold normalize_yo; now rewrite Hyo).
  split; [exact Hn|].
  unfold get_collocation_normal_form. rewrite Hn.
  unfold normalize_yo.
  destruct (Str.contains [yo] (lower (Str.replace yo ye pnormal_form)));
    [|reflexivity].
  fold replace_yo_in.
  change (map (fun c => set_collocation c (Str.replace yo ye (collocation c))))
    with (map replace_yo_in).
  now rewrite replace_yo_in_idem, !(str_replace_idem _ yo_ye).
Qed.

(** What [replace] does to a string: no [old] is left, a character other
    than [old] stays where it is, and a string without [old] is
    unchanged. *)
Lemma str_replace_removes (old new : char) (s : str) :
  old <> new -> ~ In old (Str.replace old new s).
Proof.
  intros Hne Hin. unfold Str.replace in Hin.
  apply in_map_iff in Hin as [c [Hc _]].
  destruct (c =? old)%N eqn:E; [congruence|].
  apply N.eqb_neq in E. congruence.
Qed.

Lemma str_replace_keeps (old new c : char) (s : str) (i : nat) :
  c <> old -> nth_error s i = Some c ->
  nth_error (Str.replace old new s) i = Some c.
Proof.
  intros Hne. unfold Str.replace. revert i.
  induction s as [|x s IH]; intros [|i]; cbn; try discriminate.
  - intros [= ->]. apply N.eqb_neq in Hne. now rewrite Hne.
  - apply IH.
Qed.

Lemma str_replace_absent (old new : char) (s : str) :
  ~ In old s -> Str.replace old new s = s.
Proof.
  intros Hs. unfold Str.replace. rewrite <- (map_id s) at 2.
  apply map_ext_in. intros c Hc.
  destruct (c =? old)%N eqn:E; [|reflexivity].
  apply N.eqb_eq in E. subst c. contradiction.
Qed.

(** ** Word membership *)

Lemma word_in_loop_true (ws : list TaggedWord) (check_word : str) :
  word_in_loop ws check_word true = true.
Proof. destruct ws; reflexivity. Qed.

(** X2. [is_word_in_tuple_list] starts its flag at [True]: on a non-empty
    list of tagged words and a non-empty word to check it answers [True],
    whether or not the word is a surface form of the list; and whatever
    the arguments, an answer it gives is [True]. *)
Theorem is_word_in_tuple_list_always_true (ws : list TaggedWord)
  (check_word : str) :
  ws <> [] -> check_word <> [] ->
  is_word_in_tuple_list (map Tagged ws) check_word = Ok true
  /\ forall c b, is_word_in_tuple_list c check_word = Ok b -> b = true.
Proof.
  intros Hws Hw. split.
  - unfold is_word_in_tuple_list. rewrite as_tagged_map.
    destruct ws as [|w ws']; [congruence|]. cbn [length Nat.eqb].
    destruct (Str.eqb check_word []) eqn:E;
      [apply str_eqb_eq in E; congruence|].
    now rewrite word_in_loop_true.
  - intros c b. unfold is_word_in_tuple_list.
    destruct (as_tagged c) as [ws0|]; [|discriminate].
    destruct (length ws0 =? 0); [discriminate|].
    destruct (Str.eqb check_word []); [discriminate|].
    rewrite word_in_loop_true. congruence.
Qed.

(** ** Head-word selector: invariants *)

Lemma as_tagged_Some (c : list item) (ws : list TaggedWord) :
  as_tagged c = Some ws -> c = map Tagged ws.
Proof.
  revert ws. induction c as [|x c IH]; intros ws H; cbn in H.
  - now injection H as <-.
  - destruct x as [w| |]; try discriminate.
    destruct (as_tagged c) as [ws'|]; [|discriminate].
    injection H as <-. cbn. now rewrite (IH ws' eq_refl).
Qed.

Lemma last_cons {A : Type} (a : A) (l : list A) (d : A) :
  last (a :: l) d = last l a.
Proof.
  revert a d. induction l as [|b l IH]; intros a d; [reflexivity|].
  change (last (a :: b :: l) d) with (last (b :: l) d).
  now rewrite (IH b d), (IH b a).
Qed.

Lemma noun_loop_last (ws : list TaggedWord) (r : str) :
  noun_loop ws r = last (map word (filter is_noun ws)) r.
Proof.
  unfold noun_loop. revert r.
  induction ws as [|w ws IH]; intros r; cbn [fold_left filter]; [reflexivity|].
  rewrite IH. destruct (is_noun w); [|reflexivity].
  cbn [map]. now rewrite last_cons.
Qed.

Lemma last_In {A : Type} (l : list A) (d : A) : last l d = d \/ In (last l d) l.
Proof.
  induction l as [|a l IH]; [now left|].
  destruct l as [|b l']; [right; now left|].
  destruct IH as [IH|IH]; [|right; right; exact IH].
  change (last (a :: b :: l') d) with (last (b :: l') d).
  rewrite IH. now left.
Qed.

Lemma get_main_word_only_ValueError (c : list item) (e : exn) :
  get_main_word c = Raise e -> e = ValueError.
Proof.
  unfold get_main_word. destruct (as_tagged c) as [ws|]; [|discriminate].
  destruct ws as [|w0 ws']; [discriminate|]. cbn [length Nat.eqb].
  unfold get_main_word_tagged.
  destruct (pos_in verb _ && pos_in adverb _); cbn [negb]; [congruence|].
  destruct ((length (w0 :: ws') =? 1) && _); [discriminate|].
  destruct (pos_count noun _ =? 1); [discriminate|].
  destruct (Str.eqb _ []); [|discriminate].
  destruct (filter is_noun _); discriminate.
Qed.

(** X3. The head word is the empty string or the surface form of a word of
    the phrase, and the only exception of [get_main_word] is the value
    error. *)
Theorem get_main_word_is_surface_form (c : list item) :
  match get_main_word c with
  | Ok main_word =>
      main_word = [] \/ exists w, In (Tagged w) c /\ word w = main_word
  | Raise e => e = ValueError
  end.
Proof.
  unfold get_main_word. destruct (as_tagged c) as [ws|] eqn:Hc; [|now left].
  apply as_tagged_Some in Hc. subst c.
  destruct ws as [|w0 ws']; [now left|]. set (ws := w0 :: ws') in *.
  cbn [length Nat.eqb].
  assert (Hin : forall w, In w ws -> In (Tagged w) (map Tagged ws))
    by (intros w Hw; now apply in_map).
  unfold get_main_word_tagged.
  destruct (pos_in verb (map pos ws) && pos_in adverb (map pos ws));
    [reflexivity|]. cbn [negb].
  destruct ((length ws =? 1) && pos_in noun (map pos ws)).
  { right. exists w0. split; [apply Hin; now left | reflexivity]. }
  destruct (pos_count noun (map pos ws) =? 1).
  { rewrite noun_loop_last.
    destruct (last_In (map word (filter is_noun ws)) []) as [E|E];
      [now left|].
    right. apply in_map_iff in E as [w [Ew Hw]].
    apply filter_In in Hw as [Hw _]. exists w. split; [now apply Hin | exact Ew]. }
  rewrite case_loop_find.
  destruct (find is_nom_or_acc ws) as [w|] eqn:Ef.
  - apply find_some in Ef as [Hw _].
    destruct (Str.eqb (word w) []) eqn:E.
    + destruct (filter is_noun ws) as [|n0 ?] eqn:En;
        [left; now apply str_eqb_eq in E|].
      right. exists n0. split; [|reflexivity]. apply Hin.
      assert (Hn : In n0 (filter is_noun ws)) by (rewrite En; now left).
      now apply filter_In in Hn as [Hn _].
    + right. exists w. split; [now apply Hin | reflexivity].
  - cbn [Str.eqb].
    destruct (filter is_noun ws) as [|n0 ?] eqn:En; [now left|].
    right. exists n0. split; [|reflexivity]. apply Hin.
    assert (Hn : In n0 (filter is_noun ws)) by (rewrite En; now left).
    now apply filter_In in Hn as [Hn _].
Qed.

(** X4. In a phrase without a verb and an adverb together, exactly one
    noun is the head word, whatever its case and position. *)
Theorem get_main_word_single_noun (ws : list TaggedWord) (n : TaggedWord) :
  pos_in verb (map pos ws) && pos_in adverb (map pos ws) = false ->
  filter is_noun ws = [n] ->
  get_main_word (map Tagged ws) = Ok (word n).
Proof.
  intros Hva Hn. unfold get_main_word. rewrite as_tagged_map.
  destruct ws as [|w0 ws']; [discriminate Hn|]. set (ws := w0 :: ws') in *.
  cbn [length Nat.eqb]. unfold get_main_word_tagged. rewrite Hva. cbn [negb].
  assert (Hc : (pos_count noun (map pos ws) =? 1) = true)
    by (rewrite pos_count_noun, Hn; reflexivity).
  destruct ((length ws =? 1) && pos_in noun (map pos ws)) eqn:E.
  - apply andb_true_iff in E as [E _]. apply Nat.eqb_eq in E.
    destruct ws' as [|? ?]; [|discriminate E].
    subst ws. cbn in Hn. destruct (is_noun w0); [|discriminate Hn].
    now injection Hn as ->.
  - rewrite Hc, noun_loop_last, Hn. reflexivity.
Qed.

(** ** Normal form by head word (deprecated resolver) *)

Lemma words_equal_to_tagged (main_word : str) (ws : list TaggedWord) :
  words_equal_to main_word (map Tagged ws)
  = Ok (filter (fun w => Str.eqb (word w) main_word) ws).
Proof.
  induction ws as [|w ws IH]; cbn; [reflexivity|]. now rewrite IH.
Qed.

(** One turn of the loop agrees with [head_in_normal_form]. *)
Lemma normal_form_old_step (i : Z) (c : list item) (rest : list (list item)) :
  normal_form_old_loop i (c :: rest)
  = match get_main_word c with
    | Raise e => Raise e
    | Ok _ =>
        if head_in_normal_form c then Ok i
        else normal_form_old_loop (i + 1)%Z rest
    end.
Proof.
  cbn [normal_form_old_loop]. unfold head_in_normal_form.
  destruct (get_main_word c) as [m|e] eqn:Hm; [|reflexivity]. cbn [bind].
  destruct (Str.eqb m []) eqn:Em.
  { destruct (as_tagged c); reflexivity. }
  destruct (as_tagged c) as [ws|] eqn:Hc.
  - apply as_tagged_Some in Hc. subst c.
    rewrite words_equal_to_tagged. cbn [bind negb andb].
    rewrite (filter_head_find (fun w => Str.eqb (word w) m)).
    destruct (filter _ ws) as [|w ?]; [reflexivity|].
    destruct (Case_eqb (case w) nominative || Str.eqb (word w) (normalized w));
      reflexivity.
  - unfold get_main_word in Hm. rewrite Hc in Hm. injection Hm as <-.
    discriminate Em.
Qed.

Lemma normal_form_old_loop_spec (cs : list (list item)) (i : Z) :
  match normal_form_old_loop i cs with
  | Raise e => e = ValueError
  | Ok r =>
      (r = (-1)%Z /\ forallb (fun c => negb (head_in_normal_form c)) cs = true)
      \/ exists k c,
           r = (i + Z.of_nat k)%Z
           /\ nth_error cs k = Some c
           /\ head_in_normal_form c = true
           /\ forallb (fun c => negb (head_in_normal_form c)) (firstn k cs)
              = true
  end.
Proof.
  revert i. induction cs as [|c rest IH]; intros i.
  - left. now split.
  - rewrite normal_form_old_step.
    destruct (get_main_word c) as [m|e] eqn:Hg;
      [|now apply (get_main_word_only_ValueError c)].
    destruct (head_in_normal_form c) eqn:Hh.
    + right. exists 0, c. cbn. rewrite Z.add_0_r. now repeat split.
    + specialize (IH (i + 1)%Z).
      destruct (normal_form_old_loop (i + 1) rest) as [r|e]; [|exact IH].
      destruct IH as [[-> Hall]|[k [c' [-> [Hn [Hc' Hall]]]]]].
      * left. split; [reflexivity|]. cbn. now rewrite Hh.
      * right. exists (S k), c'. cbn [nth_error firstn forallb].
        rewrite Hh. repeat split; try assumption. lia.
Qed.

(** X5. [get_collocation_normal_form_old] raises nothing but the value
    error of the head-word selector. When it returns, the result is -1 and
    no phrase has its head word in normal form (found, and in the
    nominative or equal to its lemma), or it is the position of the first
    phrase that has. *)
Theorem get_collocation_normal_form_old_first (cs : list (list item)) :
  match get_collocation_normal_form_old cs with
  | Raise e => e = ValueError
  | Ok r =>
      (r = (-1)%Z /\ forallb (fun c => negb (head_in_normal_form c)) cs = true)
      \/ exists k c,
           r = Z.of_nat k
           /\ nth_error cs k = Some c
           /\ head_in_normal_form c = true
           /\ forallb (fun c => negb (head_in_normal_form c)) (firstn k cs)
              = true
  end.
Proof.
  unfold get_collocation_normal_form_old.
  pose proof (normal_form_old_loop_spec cs 0) as H.
  destruct (normal_form_old_loop 0 cs) as [r|e]; [|exact H].
  destruct H as [H|[k [c [-> H]]]]; [now left|].
  right. exists k, c. now rewrite Z.add_0_l.
Qed.

(** ** Link graph validator *)

Lemma Z_mem_In (x : Z) (ids : list Z) : Z_mem x ids = true <-> In x ids.
Proof.
  unfold Z_mem. rewrite existsb_exists. split.
  - intros [y [Hy E]]. apply Z.eqb_eq in E. now subst.
  - intros H. exists x. split; [exact H | apply Z.eqb_refl].
Qed.

Lemma filter_id_unique (l : list Collocation) (c : Collocation) :
  NoDup (map coll_id l) -> In c l ->
  filter (fun x => (coll_id x =? coll_id c)%Z) l = [c].
Proof.
  induction l as [|a l IH]; intros Hnd Hin; [destruct Hin|].
  cbn in Hnd. apply NoDup_cons_iff in Hnd as [Hna Hnd]. cbn [filter].
  destruct Hin as [->|Hin].
  - rewrite Z.eqb_refl. f_equal.
    clear IH. induction l as [|b l IHl]; [reflexivity|]. cbn [filter].
    destruct (coll_id b =? coll_id c)%Z eqn:E.
    + apply Z.eqb_eq in E. exfalso. apply Hna. cbn. now left.
    + apply IHl.
      * intros H. apply Hna. cbn. now right.
      * cbn in Hnd. now apply NoDup_cons_iff in Hnd as [_ Hnd].
  - destruct (coll_id a =? coll_id c)%Z eqn:E.
    + apply Z.eqb_eq in E. exfalso. apply Hna. rewrite E.
      now apply in_map.
    + now apply IH.
Qed.

(** X6. In a list with unique ids, looking a candidate up by its own id
    returns that candidate, and nothing is logged. *)
Theorem find_candidate_by_id_own_id (l : list Collocation) (c : Collocation) :
  NoDup (map coll_id l) -> In c l ->
  find_candidate_by_id l (coll_id c) = (Some c, None).
Proof.
  intros Hnd Hin. unfold find_candidate_by_id.
  now rewrite filter_id_unique.
Qed.

(** X7. When no candidate has the id looked up, [find_candidate_by_id]
    returns [None] and logs two values: the first is true exactly when
    every link of every candidate is the id of a candidate of the list,
    the second exactly when some candidate with links has all of them
    among those ids. A lookup that returns [None] has met no candidate
    with that id. *)
Theorem find_candidate_by_id_miss (l : list Collocation) (cid : Z) :
  (fst (find_candidate_by_id l cid) = None <-> ~ In cid (map coll_id l))
  /\ (~ In cid (map coll_id l) ->
      exists flag some,
        find_candidate_by_id l cid = (None, Some (flag, some))
        /\ (flag = true <-> links_closed l)
        /\ (some = true <->
            exists p, In p l /\ llinked p <> []
                      /\ forall link, In link (llinked p) ->
                                      In link (map coll_id l))).
Proof.
  assert (Hnone : forall l0,
             filter (fun c => (coll_id c =? cid)%Z) l0 = []
             <-> ~ In cid (map coll_id l0)).
  { intros l0. induction l0 as [|a l0 IH]; cbn; [tauto|].
    destruct (coll_id a =? cid)%Z eqn:E.
    - apply Z.eqb_eq in E. split; [discriminate | intros H; exfalso; tauto].
    - apply Z.eqb_neq in E. rewrite IH. tauto. }
  split.
  - unfold find_candidate_by_id. rewrite <- Hnone.
    destruct (filter _ l); cbn; split; congruence.
  - intros Hmiss. apply Hnone in Hmiss.
    unfold find_candidate_by_id. rewrite Hmiss.
    unfold link_diagnostic. eexists _, _. split; [reflexivity|]. split.
    + rewrite forallb_forall. unfold links_closed. split.
      * intros H p link Hp Hlink.
        assert (Hl : (0 <? length (llinked p)) = true)
          by (destruct (llinked p); [destruct Hlink | reflexivity]).
        specialize (H (forallb (fun k => Z_mem k (map coll_id l)) (llinked p))).
        unfold id in H. rewrite forallb_forall in H.
        apply Z_mem_In, H; [|exact Hlink].
        apply in_map_iff. exists p. split; [reflexivity|].
        apply filter_In. now split.
      * intros H b Hb. apply in_map_iff in Hb as [p [<- Hp]].
        apply filter_In in Hp as [Hp _]. unfold id.
        apply forallb_forall. intros link Hlink. apply Z_mem_In.
        now apply (H p).
    + rewrite existsb_exists. split.
      * intros [b [Hb Hid]]. unfold id in Hid. subst b.
        apply in_map_iff in Hb as [p [Hall Hp]].
        apply filter_In in Hp as [Hp Hlen].
        exists p. split; [exact Hp|]. split.
        -- destruct (llinked p); [discriminate Hlen | discriminate].
        -- intros link Hlink. rewrite forallb_forall in Hall.
           now apply Z_mem_In, Hall.
      * intros [p [Hp [Hne Hall]]]. exists true. split; [|reflexivity].
        apply in_map_iff. exists p. split.
        -- apply forallb_forall. intros link Hlink.
           now apply Z_mem_In, Hall.
        -- apply filter_In. split; [exact Hp|].
           destruct (llinked p); [congruence | reflexivity].
Qed.

(** ** Dedup traversal: depth and [count_includes] *)

Lemma half_pow2 (n d : nat) : n <= 2 ^ S d -> n / 2 <= 2 ^ d /\ n - n / 2 <= 2 ^ d.
Proof.
  intros H. rewrite Nat.pow_succ_r' in H.
  pose proof (Nat.div_mod_eq n 2) as E.
  pose proof (Nat.mod_upper_bound n 2) as U. lia.
Qed.

Lemma binary_identity_check_pow2 (q : list item) (depth : nat)
  (l : list (Z * list item)) :
  l <> [] -> length l <= 2 ^ depth ->
  binary_identity_check (S depth) q l = Some (linear_identity_scan q l).
Proof.
  revert l. induction depth as [|depth IH]; intros l Hne Hlen.
  - destruct l as [|tmp [|? ?]]; [congruence | | simpl in Hlen; lia].
    unfold linear_identity_scan. simpl.
    destruct (is_identical_collocation_q q (snd tmp)); reflexivity.
  - destruct (Nat.eq_dec (length l) 1) as [H1|H1].
    + destruct l as [|tmp [|? ?]]; simpl in H1; try lia.
      unfold linear_identity_scan. simpl.
      destruct (is_identical_collocation_q q (snd tmp)); reflexivity.
    + assert (H2 : 2 <= length l)
        by (destruct l; [congruence | simpl in *; lia]).
      destruct (half_bounds H2) as [Hlo Hhi].
      destruct (half_pow2 _ Hlen) as [Hf2 Hs2].
      rewrite binary_identity_check_split by exact H1.
      set (m := length l / 2) in *.
      assert (Hf : length (firstn m l) = m) by (rewrite length_firstn; lia).
      assert (Hs : length (skipn m l) = length l - m) by apply length_skipn.
      rewrite (IH (firstn m l));
        [| intros E; rewrite E in Hf; simpl in Hf; lia | lia].
      rewrite (IH (skipn m l));
        [| intros E; rewrite E in Hs; simpl in Hs; lia | lia].
      assert (Hl : linear_identity_scan q l
                   = linear_identity_scan q (firstn m l ++ skipn m l))
        by now rewrite firstn_skipn.
      rewrite Hl. unfold linear_identity_scan.
      rewrite comprehension_app.
      destruct (comprehension _ (firstn m l)) as [r1|e]; simpl; [|reflexivity].
      destruct (comprehension _ (skipn m l)) as [r2|e]; reflexivity.
Qed.

(** X8. On a non-empty candidate list of length [n] the calls of
    [binary_identity_check] nest no deeper than one plus the base-2
    logarithm of [n], rounded up: that budget is enough for the result of
    the direct scan. *)
Theorem binary_identity_check_log_depth (q : list item)
  (l : list (Z * list item)) :
  l <> [] ->
  binary_identity_check (S (Nat.log2_up (length l))) q l
  = Some (linear_identity_scan q l).
Proof.
  intros Hne. apply binary_identity_check_pow2; [exact Hne|].
  apply Nat.log2_log2_up_spec.
  destruct l; [congruence | simpl; lia].
Qed.

Lemma enumerate_from_nth {A : Type} (l : list A) (s i : Z) (a : A) :
  In (i, a) (enumerate_from s l) ->
  exists k, i = (s + Z.of_nat k)%Z /\ nth_error l k = Some a.
Proof.
  revert s. induction l as [|x l IH]; intros s H; [destruct H|].
  cbn in H. destruct H as [H|H].
  - injection H as <- <-. exists 0. split; [lia | reflexivity].
  - apply IH in H as [k [-> Hk]]. exists (S k). split; [lia | exact Hk].
Qed.

Lemma getitem_enumerate {A : Type} (l : list A) (i : Z) (a : A) :
  In (i, a) (enumerate l) -> getitem l i = Ok a.
Proof.
  intros H. apply enumerate_from_nth in H as [k [-> Hk]].
  unfold getitem. rewrite Z.add_0_l.
  destruct (Z.of_nat k <? 0)%Z eqn:E; [apply Z.ltb_lt in E; lia|].
  rewrite E, Nat2Z.id, Hk. reflexivity.
Qed.

Lemma length_enumerate_from {A : Type} (l : list A) (s : Z) :
  length (enumerate_from s l) = length l.
Proof.
  revert s. induction l as [|x l IH]; intros s; cbn; [reflexivity|].
  now rewrite IH.
Qed.

(** The scan of an enumerated list pairs the positions with the answers. *)
Lemma linear_identity_scan_enumerate (q : list item) (l : list (list item))
  (s : Z) :
  linear_identity_scan q (enumerate_from s l)
  = (bs <- comprehension (is_identical_collocation_q q) l ;;
     Ok (map (fun x : Z * list item * bool => (fst (fst x), snd x))
             (combine (enumerate_from s l) bs))).
Proof.
  unfold linear_identity_scan. revert s.
  induction l as [|c l IH]; intros s; cbn; [reflexivity|].
  destruct (is_identical_collocation_q q c) as [b|e]; cbn; [|reflexivity].
  rewrite IH.
  destruct (comprehension (is_identical_collocation_q q) l); reflexivity.
Qed.

(** Reading the candidates back by position gives the enumerated ones. *)
Lemma count_includes_lookup (l : list (list item))
  (X : list (Z * list item * bool)) :
  (forall x, In x X -> In (fst x) (enumerate l)) ->
  comprehension
    (fun id_tuple : Z * bool =>
       c <- getitem l (fst id_tuple) ;; Ok (fst id_tuple, c))
    (filter snd
       (map (fun x : Z * list item * bool => (fst (fst x), snd x)) X))
  = Ok (map fst (filter snd X)).
Proof.
  induction X as [|[[i c] b] X IH]; intros H; [reflexivity|].
  assert (IH' := IH (fun x Hx => H x (or_intror Hx))).
  cbn [map filter fst snd]. destruct b; [|exact IH'].
  cbn [comprehension fst snd map].
  rewrite (getitem_enumerate l i c) by (apply (H (i, c, true)); now left).
  cbn [bind]. now rewrite IH'.
Qed.

Lemma combine_In_fst {A B : Type} (l : list A) (l' : list B) (x : A * B) :
  In x (combine l l') -> In (fst x) l.
Proof. destruct x as [a b]. apply in_combine_l. Qed.

(** X9. On a non-empty candidate list, and within the logarithmic depth,
    [count_includes] returns the candidates that the fast comparator
    finds identical to the query, each with its position in the list, in
    list order; when a comparison raises, it raises the first such
    exception. Reading a candidate back by its position never fails. *)
Theorem count_includes_matching (q : list item) (l : list (list item)) :
  l <> [] ->
  count_includes (S (Nat.log2_up (length l))) q l
  = Some (matching_candidates q l).
Proof.
  intros Hne. unfold count_includes, matching_candidates, enumerate.
  rewrite binary_identity_check_pow2.
  - rewrite linear_identity_scan_enumerate.
    destruct (comprehension (is_identical_collocation_q q) l) as [bs|e];
      cbn [bind]; [|reflexivity].
    f_equal. apply count_includes_lookup.
    intros x Hx. now apply combine_In_fst in Hx.
  - destruct l; [congruence | discriminate].
  - rewrite length_enumerate_from. apply Nat.log2_log2_up_spec.
    destruct l; [congruence | simpl; lia].
Qed.

(** ** Word comparator: guards and lemmas *)

(** X10. The guards of [is_identical_word] on strings, in order: an empty
    string on either side gives [False], whatever the other side is;
    otherwise a space in either string raises the value error; otherwise
    a string that [is_correct_word] rejects raises the value error. Two
    tagged words never raise, and a string with a tagged word raises the
    type error. *)
Theorem is_identical_word_guards (a b : str) (w1 w2 : TaggedWord) :
  is_identical_word (WStr []) (WStr b) = Ok false
  /\ is_identical_word (WStr a) (WStr []) = Ok false
  /\ (a <> [] -> b <> [] ->
      (In space a \/ In space b ->
       is_identical_word (WStr a) (WStr b) = Raise ValueError)
      /\ (is_correct_word a && is_correct_word b = false ->
          is_identical_word (WStr a) (WStr b) = Raise ValueError))
  /\ is_identical_word (WTagged w1) (WTagged w2)
     = Ok (Str.eqb (normalized w1) (normalized w2))
  /\ is_identical_word (WStr a) (WTagged w2) = Raise TypeError
  /\ is_identical_word (WTagged w1) (WStr b) = Raise TypeError.
Proof.
  assert (Hcount : forall s, In space s -> (1 <=? Str.count space s) = true).
  { intros s Hs. apply Nat.leb_le. unfold Str.count.
    assert (Hf : In space (filter (fun x => (x =? space)%N) s))
      by (apply filter_In; split; [exact Hs | apply N.eqb_refl]).
    destruct (filter (fun x => (x =? space)%N) s);
      [destruct Hf | simpl; lia]. }
  split; [reflexivity|]. split.
  { unfold is_identical_word. cbn [Str.eqb]. now rewrite orb_true_r. }
  split; [|split; [|split; reflexivity]].
  - intros Ha Hb.
    assert (Ea : Str.eqb a [] = false)
      by (destruct (Str.eqb a []) eqn:E;
          [apply str_eqb_eq in E; congruence | reflexivity]).
    assert (Eb : Str.eqb b [] = false)
      by (destruct (Str.eqb b []) eqn:E;
          [apply str_eqb_eq in E; congruence | reflexivity]).
    unfold is_identical_word. rewrite Ea, Eb. cbn [orb]. split.
    + intros [H|H]; apply Hcount in H; rewrite H;
        [reflexivity | now rewrite orb_true_r].
    + intros H. rewrite H. cbn [negb].
      destruct ((1 <=? Str.count space a) || (1 <=? Str.count space b));
        reflexivity.
  - unfold is_identical_word.
    destruct (TaggedWord_eqb w1 w2) eqn:E; [|reflexivity]. cbn [negb].
    unfold TaggedWord_eqb in E.
    apply andb_true_iff in E as [_ E]. now rewrite E.
Qed.

(** X11. On valid words whose lower-cased forms the tagger gives a lemma,
    word identity is equality of those lemmas; in particular it is
    transitive there. *)
Theorem is_identical_word_lemma_equality (a b c la lb lc : str) :
  valid_word a = true -> valid_word b = true -> valid_word c = true ->
  lemma_of a = Some la -> lemma_of b = Some lb -> lemma_of c = Some lc ->
  is_identical_word (WStr a) (WStr b) = Ok (Str.eqb la lb)
  /\ (is_identical_word (WStr a) (WStr b) = Ok true ->
      is_identical_word (WStr b) (WStr c) = Ok true ->
      is_identical_word (WStr a) (WStr c) = Ok true).
Proof.
  assert (Heq : forall x y lx ly,
             valid_word x = true -> valid_word y = true ->
             lemma_of x = Some lx -> lemma_of y = Some ly ->
             is_identical_word (WStr x) (WStr y) = Ok (Str.eqb lx ly)).
  { intros x y lx ly Hx Hy Lx Ly. unfold valid_word in Hx, Hy.
    apply andb_true_iff in Hx as [Hx Hcx]. apply andb_true_iff in Hx as [Hnx Hsx].
    apply andb_true_iff in Hy as [Hy Hcy]. apply andb_true_iff in Hy as [Hny Hsy].
    apply negb_true_iff in Hnx, Hny. apply Nat.eqb_eq in Hsx, Hsy.
    unfold is_identical_word. rewrite Hnx, Hny, Hsx, Hsy, Hcx, Hcy.
    cbn [orb andb negb Nat.leb]. unfold lemma_of in Lx, Ly.
    destruct (Str.eqb (lower x) (lower y)) eqn:E; cbn [negb].
    - apply str_eqb_eq in E. rewrite E in Lx. rewrite Lx in Ly.
      injection Ly as ->. now rewrite str_eqb_refl.
    - destruct (tag_collocation (lower x)) as [|[wx| |] ?]; try discriminate.
      destruct (tag_collocation (lower y)) as [|[wy| |] ?]; try discriminate.
      injection Lx as <-. injection Ly as <-. reflexivity. }
  intros Ha Hb Hc La Lb Lc. split; [now apply Heq|].
  rewrite (Heq a b la lb), (Heq b c lb lc), (Heq a c la lc) by assumption.
  intros H1 H2. injection H1 as H1. injection H2 as H2.
  apply str_eqb_eq in H1, H2. subst. now rewrite str_eqb_refl.
Qed.

(** ** Collocation comparators: symmetry, guards, undetermined heads *)

Lemma item_eqb_sym (x y : item) : item_eqb x y = item_eqb y x.
Proof.
  destruct x as [a|a|], y as [b|b|]; cbn; try reflexivity.
  - unfold TaggedWord_eqb.
    rewrite (str_eqb_sym (word a)), (str_eqb_sym (normalized a)).
    assert (Hp : PartOfSpeech_eqb (pos a) (pos b)
                 = PartOfSpeech_eqb (pos b) (pos a))
      by (destruct (pos a), (pos b); cbn; try reflexivity; apply Nat.eqb_sym).
    assert (Hc : Case_eqb (case a) (case b) = Case_eqb (case b) (case a))
      by (destruct (case a), (case b); cbn; try reflexivity;
          apply Nat.eqb_sym).
    now rewrite Hp, Hc.
  - apply N.eqb_sym.
Qed.

Lemma items_eqb_sym (c1 c2 : list item) : items_eqb c1 c2 = items_eqb c2 c1.
Proof.
  revert c2. induction c1 as [|x c1 IH]; intros [|y c2]; cbn; try reflexivity.
  now rewrite item_eqb_sym, IH.
Qed.

Lemma items_eqb_refl (c : list item) : items_eqb c c = true.
Proof.
  induction c as [|x c IH]; cbn; [reflexivity|].
  now rewrite item_eqb_refl, IH.
Qed.

Lemma items_eqb_length (c1 c2 : list item) :
  items_eqb c1 c2 = true -> length c1 = length c2.
Proof.
  revert c2. induction c1 as [|x c1 IH]; intros [|y c2]; cbn;
    try discriminate; [reflexivity|].
  intros H. apply andb_true_iff in H as [_ H]. f_equal. now apply IH.
Qed.

Lemma normalized_loop_sym (c1 c2 : list item) :
  length c1 = length c2 -> normalized_loop c1 c2 = normalized_loop c2 c1.
Proof.
  revert c2. induction c1 as [|x c1 IH]; intros [|y c2] H; cbn in H;
    try discriminate; [reflexivity|].
  cbn [normalized_loop index0 bind tl].
  destruct x as [a| |], y as [b| |]; cbn; try reflexivity.
  rewrite (str_eqb_sym (normalized a)).
  destruct (Str.eqb (normalized b) (normalized a)); [|reflexivity].
  apply IH. now injection H.
Qed.

(** X12. The fast comparator is symmetric: both orders give the same
    answer, or raise the same exception. *)
Theorem is_identical_collocation_q_symmetric (c1 c2 : list item) :
  is_identical_collocation_q c1 c2 = is_identical_collocation_q c2 c1.
Proof.
  unfold is_identical_collocation_q.
  rewrite (orb_comm (length c1 <? 1)).
  destruct ((length c2 <? 1) || (length c1 <? 1)); [reflexivity|].
  rewrite (items_eqb_sym c1 c2).
  destruct (items_eqb c2 c1); [reflexivity|].
  rewrite (Nat.eqb_sym (length c1)).
  destruct (length c2 =? length c1) eqn:El; [|reflexivity]. cbn [negb].
  apply Nat.eqb_eq in El.
  destruct (get_main_word c1) as [m1|e1] eqn:H1,
           (get_main_word c2) as [m2|e2] eqn:H2; cbn [bind];
    try reflexivity.
  - rewrite (is_identical_word_sym (WStr m1)).
    destruct (except_ValueError _ false) as [[|]|e]; cbn [bind negb];
      try reflexivity.
    now apply normalized_loop_sym.
  - apply get_main_word_only_ValueError in H1, H2. now subst.
Qed.

(** X13. The edge cases of the fast comparator: an empty sequence on
    either side raises the value error; a non-empty sequence is identical
    to itself whatever it holds; two non-empty sequences of different
    lengths are not identical. None of these looks at a head word. *)
Theorem is_identical_collocation_q_edges (c c' : list item) :
  is_identical_collocation_q [] c = Raise ValueError
  /\ is_identical_collocation_q c [] = Raise ValueError
  /\ (c <> [] -> is_identical_collocation_q c c = Ok true)
  /\ (c <> [] -> c' <> [] -> length c <> length c' ->
      is_identical_collocation_q c c' = Ok false).
Proof.
  split; [reflexivity|]. split.
  { unfold is_identical_collocation_q. cbn. now rewrite orb_true_r. }
  split.
  - intros Hc. unfold is_identical_collocation_q.
    destruct c; [congruence|]. cbn [length Nat.ltb Nat.leb orb].
    now rewrite items_eqb_refl.
  - intros Hc Hc' Hlen. unfold is_identical_collocation_q.
    destruct c as [|x c]; [congruence|]. destruct c' as [|y c']; [congruence|].
    cbn [length Nat.ltb Nat.leb orb].
    destruct (items_eqb (x :: c) (y :: c')) eqn:E;
      [apply items_eqb_length in E; cbn in E, Hlen; congruence|].
    apply Nat.eqb_neq in Hlen. cbn [length] in Hlen. now rewrite Hlen.
Qed.

Lemma get_main_word_not_tagged (c : list item) :
  as_tagged c = None -> get_main_word c = Ok [].
Proof. intros H. unfold get_main_word. now rewrite H. Qed.

(** X14. A sequence that holds a separator or [None] has no head word,
    and the fast comparator finds it identical to itself only: compared
    with any other non-empty sequence whose head-word selection does not
    raise, the answer is [False]. *)
Theorem is_identical_collocation_q_undetermined (c1 c2 : list item)
  (m2 : str) :
  as_tagged c1 = None -> c2 <> [] -> get_main_word c2 = Ok m2 ->
  is_identical_collocation_q c1 c2 = Ok (items_eqb c1 c2)
  /\ is_identical_collocation_q c2 c1 = Ok (items_eqb c1 c2).
Proof.
  intros Hsep Hc2 Hm2.
  destruct c1 as [|x c1]; [discriminate Hsep|].
  destruct c2 as [|y c2]; [congruence|].
  unfold is_identical_collocation_q.
  change ((length (x :: c1) <? 1) || (length (y :: c2) <? 1)) with false.
  change ((length (y :: c2) <? 1) || (length (x :: c1) <? 1)) with false.
  cbv iota. rewrite (items_eqb_sym (y :: c2)).
  destruct (items_eqb (x :: c1) (y :: c2)); [now split|].
  rewrite (Nat.eqb_sym (length (y :: c2))).
  destruct (length (x :: c1) =? length (y :: c2)); [|now split].
  cbn [negb]. rewrite (get_main_word_not_tagged _ Hsep), Hm2. cbn [bind].
  split; [reflexivity|].
  unfold is_identical_word. cbn [Str.eqb]. now rewrite orb_true_r.
Qed.

Lemma valid_phrase_guards (p1 p2 : str) :
  (length (Str.split p1) <=? 1) || (length (Str.split p2) <=? 1) = false ->
  existsb negb (map is_correct_word (Str.split p1 ++ Str.split p2)) = false ->
  valid_phrase p1 && valid_phrase p2 = true.
Proof.
  intros Hn Hv. apply orb_false_iff in Hn as [H1 H2].
  apply Nat.leb_gt in H1, H2. unfold valid_phrase.
  assert (Hall : forall ws, In ws [Str.split p1; Str.split p2] ->
                            forallb is_correct_word ws = true).
  { intros ws Hws. apply forallb_forall. intros tok Htok.
    destruct (is_correct_word tok) eqn:E; [reflexivity|].
    assert (Hex : existsb negb
                    (map is_correct_word (Str.split p1 ++ Str.split p2))
                  = true).
    { apply existsb_negb_map. exists tok. split; [|exact E].
      apply in_app_iff. destruct Hws as [<-|[<-|[]]]; auto. }
    congruence. }
  rewrite (Hall (Str.split p1)), (Hall (Str.split p2)) by (cbn; auto).
  rewrite !andb_true_r. apply andb_true_iff.
  split; apply Nat.leb_le; lia.
Qed.

Lemma valid_phrases_pass (p1 p2 : str) :
  valid_phrase p1 = true -> valid_phrase p2 = true ->
  (length (Str.split p1) <=? 1) || (length (Str.split p2) <=? 1) = false
  /\ existsb negb (map is_correct_word (Str.split p1 ++ Str.split p2)) = false.
Proof.
  unfold valid_phrase. intros H1 H2.
  apply andb_true_iff in H1 as [N1 A1]. apply andb_true_iff in H2 as [N2 A2].
  apply Nat.leb_le in N1, N2. split.
  - apply orb_false_iff. split; apply Nat.leb_gt; lia.
  - destruct (existsb negb _) eqn:E; [|reflexivity].
    apply existsb_negb_map in E as [tok [Hin Hf]].
    rewrite forallb_forall in A1, A2.
    apply in_app_iff in Hin as [Hin|Hin];
      [apply A1 in Hin | apply A2 in Hin]; congruence.
Qed.

(** X15. The guards of the validating comparator stand before every
    comparison: unless both strings are valid phrases (two tokens or
    more, each accepted by [is_correct_word]) the call raises the value
    error, even for two equal strings. A valid phrase is identical to
    itself, and two valid phrases with different numbers of tokens are
    not identical; neither answer asks the tagger. *)
Theorem is_identical_collocation_guards (p1 p2 : str) :
  (valid_phrase p1 && valid_phrase p2 = false ->
   is_identical_collocation p1 p2 = Raise ValueError)
  /\ (valid_phrase p1 = true -> is_identical_collocation p1 p1 = Ok true)
  /\ (valid_phrase p1 = true -> valid_phrase p2 = true ->
      length (Str.split p1) <> length (Str.split p2) ->
      is_identical_collocation p1 p2 = Ok false).
Proof.
  split; [|split].
  - intros H. unfold is_identical_collocation.
    destruct ((length (Str.split p1) <=? 1) || (length (Str.split p2) <=? 1))
      eqn:Hn; [reflexivity|].
    destruct (existsb negb _) eqn:Hv; [reflexivity|].
    rewrite (valid_phrase_guards _ _ Hn Hv) in H. discriminate H.
  - intros H. destruct (valid_phrases_pass _ _ H H) as [Hn Hv].
    unfold is_identical_collocation. now rewrite Hn, Hv, str_eqb_refl.
  - intros H1 H2 Hlen. destruct (valid_phrases_pass _ _ H1 H2) as [Hn Hv].
    unfold is_identical_collocation. rewrite Hn, Hv.
    destruct (Str.eqb p1 p2) eqn:E; [apply str_eqb_eq in E; congruence|].
    apply Nat.eqb_neq in Hlen. now rewrite Hlen.
Qed.

(** X16. When the tagged form of a valid phrase holds a separator or
    [None], its head word is undetermined and the validating comparator
    finds the phrase identical to itself only: against any other valid
    phrase whose head-word selection does not raise, the answer is
    [False] in both orders. *)
Theorem is_identical_collocation_undetermined (p1 p2 m2 : str) :
  valid_phrase p1 = true -> valid_phrase p2 = true ->
  as_tagged (tag_collocation p1) = None ->
  get_main_word (tag_collocation p2) = Ok m2 ->
  is_identical_collocation p1 p2 = Ok (Str.eqb p1 p2)
  /\ is_identical_collocation p2 p1 = Ok (Str.eqb p1 p2).
Proof.
  intros H1 H2 Hsep Hm2.
  destruct (valid_phrases_pass _ _ H1 H2) as [Hn Hv].
  destruct (valid_phrases_pass _ _ H2 H1) as [Hn' Hv'].
  unfold is_identical_collocation.
  rewrite Hn, Hv, Hn', Hv', (str_eqb_sym p2 p1).
  destruct (Str.eqb p1 p2); [now split|].
  rewrite (Nat.eqb_sym (length (Str.split p2))).
  destruct (length (Str.split p1) =? length (Str.split p2)); [|now split].
  cbn [negb]. rewrite (get_main_word_not_tagged _ Hsep), Hm2. cbn [bind].
  split; [reflexivity|].
  unfold is_identical_word. cbn [Str.eqb]. now rewrite orb_true_r.
Qed.

(** ** Containment: words, counts and candidate sub-phrases *)

Lemma split_from_clean (cur s : str) :
  (forall c, In c cur -> isspace c = false) ->
  forall w, In w (Str.split_from cur s) ->
            w <> [] /\ forall c, In c w -> isspace c = false.
Proof.
  revert cur. induction s as [|c s IH]; intros cur Hcur w Hw; cbn in Hw.
  - destruct cur as [|c0 cur']; [destruct Hw|].
    destruct Hw as [<-|[]]. split.
    + intros E. apply (f_equal (@length char)) in E.
      rewrite length_rev in E. discriminate E.
    + intros c Hc. apply Hcur. now apply in_rev.
  - destruct (isspace c) eqn:Ec.
    + destruct cur as [|c0 cur']; [apply (IH [] ltac:(intros ? []) w Hw)|].
      destruct Hw as [<-|Hw]; [|apply (IH [] ltac:(intros ? []) w Hw)].
      split.
      * intros E. apply (f_equal (@length char)) in E.
        rewrite length_rev in E. discriminate E.
      * intros c1 Hc1. apply Hcur. now apply in_rev.
    + apply (IH (c :: cur)); [|exact Hw].
      intros c1 [<-|Hc1]; [exact Ec | now apply Hcur].
Qed.

Lemma split_clean (p w : str) :
  In w (Str.split p) -> w <> [] /\ ~ In space w.
Proof.
  intros Hw. apply (split_from_clean [] p) in Hw as [Hne Hsp];
    [|intros ? []].
  split; [exact Hne|]. intros Hin. apply Hsp in Hin. discriminate Hin.
Qed.

Lemma split_on_from_word (w cur rest : str) :
  ~ In space w ->
  Str.split_on_from space cur (w ++ rest)
  = Str.split_on_from space (rev w ++ cur) rest.
Proof.
  revert cur. induction w as [|c w IH]; intros cur Hw; [reflexivity|].
  cbn [app Str.split_on_from].
  destruct (c =? space)%N eqn:E;
    [apply N.eqb_eq in E; exfalso; apply Hw; now left|].
  rewrite IH by (intros H; apply Hw; now right).
  cbn [rev]. now rewrite <- app_assoc.
Qed.

(** Words without a space, joined by single spaces and cut at every
    space, come back as they were. *)
Lemma split_on_join (ws : list str) :
  ws <> [] -> (forall w, In w ws -> ~ In space w) ->
  Str.split_on space (Str.join [space] ws) = ws.
Proof.
  unfold Str.split_on. induction ws as [|w ws IH]; intros Hne Hws;
    [congruence|].
  destruct ws as [|w' ws'].
  - cbn [Str.join]. rewrite <- (app_nil_r w) at 1.
    rewrite split_on_from_word by (apply Hws; now left).
    cbn. now rewrite app_nil_r, rev_involutive.
  - change (Str.join [space] (w :: w' :: ws'))
      with (w ++ [space] ++ Str.join [space] (w' :: ws')).
    rewrite split_on_from_word by (apply Hws; now left).
    cbn [app Str.split_on_from]. rewrite N.eqb_refl.
    rewrite app_nil_r, rev_involutive. f_equal.
    apply IH; [discriminate|]. intros x Hx. apply Hws. now right.
Qed.

Lemma sum_rows_length (f : nat -> nat) (c a m : nat) :
  a + m <= c + 1 -> (forall k, a <= k < a + m -> f k = c - k) ->
  2 * length (flat_map (fun k => map (pair k) (seq 0 (f k))) (rev (seq a m)))
  + 2 * m * a + m * m
  = 2 * m * c + m.
Proof.
  induction m as [|m IH]; intros H Hf; [reflexivity|].
  rewrite seq_S, rev_app_distr. cbn [rev app flat_map].
  rewrite length_app, length_map, length_seq.
  rewrite (Hf (a + m)) by lia.
  assert (IH' := IH ltac:(lia) (fun k Hk => Hf k ltac:(lia))). nia.
Qed.

(** X17. A non-empty phrase of [n] words, [n] at least 2, has
    [(n - 2) * (n + 1) / 2] sub-phrases in [make_substrs]. *)
Theorem make_substrs_count (collocation : str) :
  collocation <> [] -> 2 <= length (Str.split collocation) ->
  2 * length (iterate (make_substrs collocation))
  = (length (Str.split collocation) - 2)
    * (length (Str.split collocation) + 1).
Proof.
  intros Hne Hn. rewrite make_substrs_visits by exact Hne.
  cbn [iterate]. rewrite length_map. unfold visits, range, range_down.
  set (n := length (Str.split collocation)) in *.
  assert (Hb : 2 + (n - 2) <= n + 1 + 1) by lia.
  assert (Hf : forall k, 2 <= k < 2 + (n - 2) -> n - k + 1 - 0 = n + 1 - k)
    by (intros; lia).
  pose proof (@sum_rows_length (fun k => n - k + 1 - 0) (n + 1) 2 (n - 2) Hb Hf)
    as H.
  replace (n - 1 - 1) with (n - 2) by lia.
  change (1 + 1) with 2. nia.
Qed.

(** The sub-phrases of exactly [k] words, from left to right. *)
Lemma visits_row (n k : nat) :
  filter (fun kj : nat * nat => fst kj =? k) (visits n)
  = if (2 <=? k) && (k <? n) then map (pair k) (seq 0 (n - k + 1)) else [].
Proof.
  unfold visits, range, range_down.
  replace (n - k + 1) with (n - k + 1 - 0) by lia.
  replace (n - 1 - 1) with (n - 2) by lia. change (1 + 1) with 2.
  assert (Hrow : forall k' c, filter (fun kj : nat * nat => fst kj =? k)
                                     (map (pair k') (seq 0 c))
                              = if k' =? k then map (pair k') (seq 0 c) else []).
  { intros k' c. generalize 0. induction c as [|c IH]; intros s; cbn.
    - now destruct (k' =? k).
    - rewrite IH. now destruct (k' =? k). }
  assert (Hgen : forall a len,
             filter (fun kj : nat * nat => fst kj =? k)
                    (flat_map (fun k' => map (pair k') (seq 0 (n - k' + 1 - 0)))
                              (rev (seq a len)))
             = if (a <=? k) && (k <? a + len)
               then map (pair k) (seq 0 (n - k + 1 - 0)) else []).
  { intros a len. induction len as [|len IH].
    - cbn [seq rev flat_map filter]. rewrite Nat.add_0_r.
      destruct (a <=? k) eqn:E1, (k <? a) eqn:E2; try reflexivity.
      apply Nat.leb_le in E1. apply Nat.ltb_lt in E2. lia.
    - rewrite seq_S, rev_app_distr. cbn [rev app flat_map].
      rewrite filter_app, Hrow, IH.
      destruct (a + len =? k) eqn:E.
      + apply Nat.eqb_eq in E. subst k.
        replace (a <=? a + len) with true by (symmetry; apply Nat.leb_le; lia).
        replace (a + len <? a + len) with false
          by (symmetry; apply Nat.ltb_ge; lia).
        replace (a + len <? a + S len) with true
          by (symmetry; apply Nat.ltb_lt; lia).
        cbn. now rewrite app_nil_r.
      + apply Nat.eqb_neq in E. cbn [app].
        destruct (a <=? k) eqn:E1; cbn [andb]; [|reflexivity].
        destruct (k <? a + len) eqn:E2, (k <? a + S len) eqn:E3;
          try reflexivity.
        * apply Nat.ltb_lt in E2. apply Nat.ltb_ge in E3. lia.
        * apply Nat.ltb_ge in E2. apply Nat.ltb_lt in E3. lia. }
  rewrite Hgen.
  destruct (2 <=? k) eqn:E1; cbn [andb]; [|reflexivity].
  apply Nat.leb_le in E1.
  destruct (k <? n) eqn:E2, (k <? 2 + (n - 2)) eqn:E3; try reflexivity.
  - apply Nat.ltb_lt in E2. apply Nat.ltb_ge in E3. lia.
  - apply Nat.ltb_ge in E2. apply Nat.ltb_lt in E3. lia.
Qed.

Lemma sub_phrase_words (words : list str) (k j : nat) :
  (forall w, In w words -> ~ In space w) ->
  In (k, j) (visits (length words)) ->
  length (Str.split_on space (sub_phrase words (k, j))) = k.
Proof.
  intros Hw Hin. apply visits_in in Hin as [H2 [Hk Hj]].
  unfold sub_phrase. cbn [fst snd].
  assert (Hlen : length (firstn k (skipn j words)) = k)
    by (rewrite length_firstn, length_skipn; lia).
  rewrite split_on_join; [exact Hlen | |].
  - intros E. rewrite E in Hlen. cbn in Hlen. lia.
  - intros w Hin. apply Hw.
    rewrite <- (firstn_skipn j words). apply in_or_app. right.
    rewrite <- (firstn_skipn k (skipn j words)). apply in_or_app. now left.
Qed.

Lemma filter_map_comm {A B : Type} (f : B -> bool) (g : A -> B) (l : list A) :
  filter f (map g l) = map g (filter (fun x => f (g x)) l).
Proof.
  induction l as [|a l IH]; cbn; [reflexivity|].
  rewrite IH. now destruct (f (g a)).
Qed.

(** The candidate sub-phrases are the windows whose length is the word
    count of the short candidate. *)
Lemma possible_identic_lines_visits (line gram : Collocation) :
  possible_identic_lines line gram
  = map (sub_phrase (Str.split (collocation gram)))
        (filter (fun kj : nat * nat => (Z.of_nat (fst kj) =? wordcount line)%Z)
                (visits (length (Str.split (collocation gram))))).
Proof.
  unfold possible_identic_lines.
  destruct (collocation gram) as [|c s] eqn:Et; [reflexivity|].
  rewrite make_substrs_visits by discriminate. cbn [iterate].
  rewrite filter_map_comm. f_equal. apply filter_ext_in.
  intros [k j] Hin. rewrite sub_phrase_words; [reflexivity | | exact Hin].
  intros w Hw. now apply (split_clean (c :: s)).
Qed.

(** X18. The sub-phrases of a longer candidate that [get_longer_terms]
    compares with a short candidate of word count [k] are, for [k] from 2
    to one less than the number [n] of words of the longer candidate, its
    [n - k + 1] windows of [k] words from left to right; for any other
    [k], also a negative one, there is none. Each sub-phrase that
    [make_substrs] gives for the longer candidate is a window of its
    words, and [split(' ')] gives back exactly the words of that window,
    so its piece count is the window's word count. *)
Theorem possible_identic_lines_windows (line gram : Collocation) :
  let words := Str.split (collocation gram) in
  let n := length words in
  let k := Z.to_nat (wordcount line) in
  possible_identic_lines line gram
  = (if ((2 <=? wordcount line) && (wordcount line <? Z.of_nat n))%Z
     then map (fun j => sub_phrase words (k, j)) (seq 0 (n - k + 1))
     else [])
  /\ (forall substr,
        In substr (iterate (make_substrs (collocation gram))) ->
        exists k' j,
          2 <= k' /\ k' < n /\ j + k' <= n
          /\ substr = Str.join [space] (firstn k' (skipn j words))
          /\ Str.split_on space substr = firstn k' (skipn j words)
          /\ length (Str.split_on space substr) = k').
Proof.
  cbv zeta. split.
  - rewrite possible_identic_lines_visits.
    set (words := Str.split (collocation gram)).
    set (n := length words). set (wc := wordcount line).
    destruct (wc <? 0)%Z eqn:Eneg.
    + apply Z.ltb_lt in Eneg.
      replace (2 <=? wc)%Z with false by (symmetry; apply Z.leb_gt; lia).
      cbn [andb].
      rewrite (filter_ext _ (fun _ => false)), filter_false; [reflexivity|].
      intros kj. apply Z.eqb_neq. lia.
    + apply Z.ltb_ge in Eneg.
      rewrite (filter_ext _ (fun kj : nat * nat => fst kj =? Z.to_nat wc)).
      * assert (Hcond : ((2 <=? wc) && (wc <? Z.of_nat n))%Z
                        = (2 <=? Z.to_nat wc) && (Z.to_nat wc <? n)).
        { apply eq_true_iff_eq.
          rewrite !andb_true_iff, Z.leb_le, Z.ltb_lt, Nat.leb_le, Nat.ltb_lt.
          lia. }
        rewrite visits_row, Hcond.
        destruct ((2 <=? Z.to_nat wc) && (Z.to_nat wc <? n)); [|reflexivity].
        now rewrite map_map.
      * intros kj. destruct (fst kj =? Z.to_nat wc) eqn:E.
        -- apply Nat.eqb_eq in E. apply Z.eqb_eq. lia.
        -- apply Nat.eqb_neq in E. apply Z.eqb_neq. lia.
  - intros substr Hin.
    destruct (collocation gram) as [|c s] eqn:Et; [destruct Hin|].
    rewrite make_substrs_visits in Hin by discriminate. cbn [iterate] in Hin.
    apply in_map_iff in Hin as [[k' j] [Hs Hv]].
    pose proof Hv as Hb. apply visits_in in Hb as [H2 [Hk Hj]].
    exists k', j. unfold sub_phrase in Hs. cbn [fst snd] in Hs.
    assert (Hlen : length (firstn k' (skipn j (Str.split (c :: s)))) = k')
      by (rewrite length_firstn, length_skipn; lia).
    assert (Hsplit : Str.split_on space substr
                     = firstn k' (skipn j (Str.split (c :: s)))).
    { subst substr. apply split_on_join.
      - intros E. rewrite E in Hlen. cbn in Hlen. lia.
      - intros w Hw. apply (split_clean (c :: s)).
        rewrite <- (firstn_skipn j (Str.split (c :: s))).
        apply in_or_app. right.
        rewrite <- (firstn_skipn k' (skipn j (Str.split (c :: s)))).
        apply in_or_app. now left. }
    repeat split; try assumption; try (now symmetry).
    now rewrite Hsplit.
Qed.

(** X19. A longer candidate that [get_longer_terms] returns has strictly
    more words than the word count of the short candidate, and that word
    count is at least 2: a one-word short candidate gets no longer term. *)
Theorem get_longer_terms_word_counts (line gram : Collocation)
  (longer_grams : list Collocation) (dictionary : list TaggedWord) :
  In gram (get_longer_terms line longer_grams dictionary) ->
  In gram longer_grams
  /\ (2 <= wordcount line
      < Z.of_nat (length (Str.split (collocation gram))))%Z.
Proof.
  unfold get_longer_terms. rewrite longer_terms_loop_filter. cbn [app].
  intros Hin. apply filter_In in Hin as [Hin Hk]. split; [exact Hin|].
  apply keeps_qualifies in Hk as [_ [substr [Hs _]]].
  rewrite possible_identic_lines_visits in Hs.
  apply in_map_iff in Hs as [[k j] [_ Hkj]].
  apply filter_In in Hkj as [Hv Hwc]. apply visits_in in Hv.
  apply Z.eqb_eq in Hwc. cbn [fst] in Hwc. lia.
Qed.

(** X20. When the dictionary holds no word of the short candidate,
    [get_longer_terms] returns nothing: every comparison raises on the
    empty tagged sequence, and each longer candidate is dropped. *)
Theorem get_longer_terms_untagged_line (line : Collocation)
  (longer_grams : list Collocation) (dictionary : list TaggedWord) :
  assign_tags (PColl line) dictionary = [] ->
  get_longer_terms line longer_grams dictionary = [].
Proof.
  intros Hline. unfold get_longer_terms. rewrite longer_terms_loop_filter.
  cbn [app]. rewrite (filter_ext _ (fun _ => false)); [apply filter_false|].
  intros gram. unfold keeps. rewrite id_check_compare.
  destruct (possible_identic_lines line gram) as [|s ls]; [reflexivity|].
  cbn [comprehension]. unfold compare_substr at 1. rewrite Hline.
  reflexivity.
Qed.

(** ** Normal-form resolver: the index and the candidates left *)

Lemma insert_by_distance_In (x y : Z * float32) (l : list (Z * float32)) :
  In y (insert_by_distance x l) -> y = x \/ In y l.
Proof.
  induction l as [|z l IH]; cbn.
  - intros [<-|[]]. now left.
  - destruct (float32_ltb (snd z) (snd x)); cbn.
    + intros [<-|H]; [right; now left|].
      apply IH in H as [->|H]; [now left | right; now right].
    + intros [<-|H]; [now left | now right].
Qed.

Lemma sorted_by_distance_In (y : Z * float32) (l : list (Z * float32)) :
  In y (sorted_by_distance l) -> In y l.
Proof.
  unfold sorted_by_distance. induction l as [|x l IH]; cbn; [tauto|].
  intros H. apply insert_by_distance_In in H as [->|H];
    [now left | right; now apply IH].
Qed.

Lemma select_index_valid (pnormal_form : str) (cs : list Collocation)
  (main_word : str) :
  select_index pnormal_form cs main_word = (-1)%Z
  \/ exists k c,
       select_index pnormal_form cs main_word = Z.of_nat k
       /\ nth_error cs k = Some c
       /\ Str.contains main_word (collocation c) = true.
Proof.
  unfold select_index.
  set (distances := map (distance pnormal_form) (map collocation cs)).
  set (indices := filter _ (enumerate distances)).
  assert (Hsel : forall ie, In ie indices ->
             exists k c, fst ie = Z.of_nat k /\ nth_error cs k = Some c
                         /\ Str.contains main_word (collocation c) = true).
  { intros [i e] Hin. apply filter_In in Hin as [Hin Hp].
    apply andb_true_iff in Hp as [_ Hp]. cbn [fst snd] in Hp.
    apply enumerate_from_nth in Hin as [k [-> _]]. rewrite Z.add_0_l in *.
    unfold getitem in Hp.
    destruct (Z.of_nat k <? 0)%Z eqn:E; [apply Z.ltb_lt in E; lia|].
    rewrite E, Nat2Z.id in Hp.
    destruct (nth_error cs k) as [c|] eqn:Hk; [|discriminate Hp].
    now exists k, c. }
  destruct (1 <? length indices).
  - destruct (sorted_by_distance indices) as [|index rest] eqn:Es;
      [now left|].
    right. apply Hsel, sorted_by_distance_In. rewrite Es. now left.
  - destruct indices as [|index rest]; [now left|].
    right. apply Hsel. now left.
Qed.

(** X21. [get_collocation_normal_form] returns -1 or the position of a
    candidate whose surface text, as the call leaves it, contains the
    head word, as the call normalises it; whatever the distances are. *)
Theorem get_collocation_normal_form_index (pnormal_form : str)
  (cs : list Collocation) (main_word : str) :
  let r := get_collocation_normal_form pnormal_form cs main_word in
  fst r = (-1)%Z
  \/ exists k c,
       fst r = Z.of_nat k /\ k < length cs
       /\ nth_error (snd r) k = Some c
       /\ Str.contains (snd (normalize_yo pnormal_form cs main_word))
                       (collocation c) = true.
Proof.
  cbv zeta. unfold get_collocation_normal_form.
  destruct (normalize_yo pnormal_form cs main_word) as [[p' cs'] m'] eqn:En.
  cbn [fst snd].
  assert (Hlen : length cs' = length cs).
  { unfold normalize_yo in En.
    destruct (Str.contains [yo] (lower pnormal_form));
      injection En as _ <- _; [apply length_map | reflexivity]. }
  destruct (select_index_valid p' cs' m') as [H|[k [c [H [Hk Hc]]]]];
    [now left|].
  right. exists k, c. repeat split; try assumption.
  rewrite <- Hlen. apply nth_error_Some. congruence.
Qed.

(** X22. The resolver changes the candidates in their surface text only,
    and only when the lower-cased pseudo-normal form holds [yo]:
    otherwise the candidates are left as they were. The other fields and
    the number of candidates never change. *)
Theorem get_collocation_normal_form_mutation (pnf : str)
  (cs : list Collocation) (main_word : str) :
  let cs' := snd (get_collocation_normal_form pnf cs main_word) in
  (Str.contains [yo] (lower pnf) = false -> cs' = cs)
  /\ length cs' = length cs
  /\ map wordcount cs' = map wordcount cs
  /\ map freq cs' = map freq cs
  /\ map pnormal_form cs' = map pnormal_form cs
  /\ map llinked cs' = map llinked cs
  /\ map coll_id cs' = map coll_id cs.
Proof.
  cbv zeta. unfold get_collocation_normal_form, normalize_yo.
  destruct (Str.contains [yo] (lower pnf)); cbn [snd].
  - split; [discriminate|]. rewrite length_map, !map_map. cbn.
    now repeat split.
  - now repeat split.
Qed.

(** ** Membership check: outcomes and the list left *)

Lemma no_bad_token_checked (q : str) (l : list str) :
  ~ bad_token q l ->
  existsb negb (map is_correct_word (Str.split q))
  || existsb negb
       (map (fun coll =>
               negb (existsb negb (map is_correct_word (Str.split coll)))) l)
  = false.
Proof.
  intros Hok. apply orb_false_iff. split.
  - destruct (existsb negb _) eqn:E; [|reflexivity].
    exfalso. apply Hok. left. now apply existsb_negb_map.
  - destruct (existsb negb _) eqn:E; [|reflexivity].
    exfalso. apply Hok. right.
    apply existsb_exists in E as [b [Hb Hn]].
    apply in_map_iff in Hb as [coll [<- Hcoll]].
    apply negb_true_iff, negb_false_iff in Hn.
    apply existsb_negb_map in Hn as [tok [Htok Hf]].
    now exists coll, tok.
Qed.

Lemma comprehension_length {A B : Type} (f : A -> result B) (l : list A)
  (bs : list B) :
  comprehension f l = Ok bs -> length bs = length l.
Proof.
  revert bs. induction l as [|a l IH]; intros bs H; cbn in H.
  - now injection H as <-.
  - destruct (f a); [|discriminate H]. cbn in H.
    destruct (comprehension f l) as [bs'|]; [|discriminate H].
    cbn in H. injection H as <-. cbn. now rewrite (IH bs' eq_refl).
Qed.

Lemma index_True_getitem (l : list str) (bs : list bool) :
  length bs = length l -> existsb id bs = true ->
  exists s,
    getitem l (Z.of_nat (index_True bs)) = Ok s
    /\ find snd (combine l bs) = Some (s, true).
Proof.
  revert bs. induction l as [|x l IH]; intros [|b bs] Hlen Hex;
    try discriminate.
  destruct b.
  - exists x. split; reflexivity.
  - cbn in Hex. injection Hlen as Hlen.
    destruct (IH bs Hlen Hex) as [s [Hg Hf]]. exists s. split; [|exact Hf].
    cbn [index_True]. unfold getitem in *.
    destruct (Z.of_nat (index_True bs) <? 0)%Z eqn:E;
      [apply Z.ltb_lt in E; lia|].
    destruct (Z.of_nat (S (index_True bs)) <? 0)%Z eqn:E';
      [apply Z.ltb_lt in E'; lia|].
    rewrite E in Hg. rewrite E'. rewrite Nat2Z.id in *. exact Hg.
Qed.

Lemma find_snd_none (l : list str) (bs : list bool) :
  existsb id bs = false -> find snd (combine l bs) = None.
Proof.
  revert bs. induction l as [|x l IH]; intros [|b bs] H; try reflexivity.
  cbn in H. apply orb_false_iff in H as [Hb H]. unfold id in Hb. subst b.
  cbn. now apply IH.
Qed.

(** X23. On a non-empty candidate list without a bad token, the
    membership check leaves the list sorted and answers as follows. A
    query that is literally in the list gives [True] with no matched
    string. Otherwise the query is compared with the candidates in
    sorted order: the first exception of a comparison is raised, and
    else the answer is whether a comparison gave [True], with the first
    candidate, in sorted order, for which it did. *)
Theorem in_collocation_list_var_outcome (q : str) (l : list str) :
  l <> [] -> ~ bad_token q l ->
  in_collocation_list_var q l
  = (if Str.mem q l then Ok (true, None)
     else
       bs <- comprehension (is_identical_collocation q) (Str.sort l) ;;
       Ok (existsb id bs,
           option_map fst (find snd (combine (Str.sort l) bs))),
     Str.sort l).
Proof.
  intros Hne Hok. unfold in_collocation_list_var.
  destruct l as [|c l']; [congruence|]. cbn [length Nat.eqb].
  rewrite (no_bad_token_checked Hok).
  destruct (Str.mem q (c :: l')); cbn [negb]; [reflexivity|].
  f_equal.
  destruct (comprehension _ (Str.sort (c :: l'))) as [bs|e] eqn:Ec;
    cbn [bind]; [|reflexivity].
  apply comprehension_length in Ec.
  destruct (existsb id bs) eqn:Ex.
  - destruct (index_True_getitem _ _ Ec Ex) as [s [Hg Hf]].
    now rewrite Hg, Hf.
  - now rewrite find_snd_none.
Qed.

(** ** Membership check: the list is sorted in place *)

Lemma ltb_irrefl (a : str) : Str.ltb a a = false.
Proof.
  induction a as [|x a IH]; [reflexivity|]. cbn.
  now rewrite N.ltb_irrefl, N.eqb_refl, IH.
Qed.

Lemma ltb_trans (a b c : str) :
  Str.ltb a b = true -> Str.ltb b c = true -> Str.ltb a c = true.
Proof.
  revert b c. induction a as [|x a IH]; intros [|y b] [|z c]; cbn;
    try discriminate; try reflexivity.
  intros H1 H2.
  apply orb_true_iff in H1 as [H1|H1]; apply orb_true_iff in H2 as [H2|H2];
    apply orb_true_iff.
  - left. apply N.ltb_lt in H1, H2. apply N.ltb_lt. lia.
  - apply andb_true_iff in H2 as [H2 _]. apply N.eqb_eq in H2. subst z.
    now left.
  - apply andb_true_iff in H1 as [H1 _]. apply N.eqb_eq in H1. subst y.
    now left.
  - apply andb_true_iff in H1 as [E1 H1]. apply andb_true_iff in H2 as [E2 H2].
    apply N.eqb_eq in E1, E2. subst y z. right.
    rewrite N.eqb_refl. cbn. now apply (IH b c).
Qed.

Lemma ltb_asym (a b : str) : Str.ltb a b = true -> Str.ltb b a = false.
Proof.
  intros H. destruct (Str.ltb b a) eqn:E; [|reflexivity].
  pose proof (ltb_trans _ _ _ H E) as Hc. now rewrite ltb_irrefl in Hc.
Qed.

Lemma insert_sorted_perm (x : str) (l : list str) :
  Permutation (x :: l) (Str.insert_sorted x l).
Proof.
  induction l as [|y l IH]; cbn; [reflexivity|].
  destruct (Str.ltb x y); [reflexivity|].
  rewrite perm_swap. now constructor.
Qed.

Lemma sort_perm (l : list str) : Permutation l (Str.sort l).
Proof.
  unfold Str.sort. induction l as [|x l IH]; cbn; [constructor|].
  rewrite <- insert_sorted_perm. now constructor.
Qed.

(** No string of the list is greater than a later one. *)
Lemma insert_sorted_sorted (x : str) (l : list str) :
  StronglySorted (fun a b => Str.ltb b a = false) l ->
  StronglySorted (fun a b => Str.ltb b a = false) (Str.insert_sorted x l).
Proof.
  induction 1 as [|y l Hs IH Hy]; cbn; [repeat constructor|].
  destruct (Str.ltb x y) eqn:E.
  - constructor; [now constructor|]. constructor; [now apply ltb_asym|].
    apply Forall_forall. intros z Hz. rewrite Forall_forall in Hy.
    specialize (Hy z Hz). destruct (Str.ltb z x) eqn:Ez; [|reflexivity].
    now rewrite (ltb_trans _ _ _ Ez E) in Hy.
  - constructor; [exact IH|].
    apply (Permutation_Forall (insert_sorted_perm x l)).
    now constructor.
Qed.

Lemma sort_sorted (l : list str) :
  StronglySorted (fun a b => Str.ltb b a = false) (Str.sort l).
Proof.
  unfold Str.sort. induction l as [|x l IH]; cbn; [constructor|].
  now apply insert_sorted_sorted.
Qed.

(** X24. The candidate list that [in_collocation_list_var] leaves holds
    the strings it was given, whatever the outcome; and when the list is
    not empty and no token is bad it is in ascending order, also when a
    comparison raises. *)
Theorem in_collocation_list_var_sorts (q : str) (l : list str) :
  Permutation l (snd (in_collocation_list_var q l))
  /\ (l <> [] -> ~ bad_token q l ->
      StronglySorted (fun a b => Str.ltb b a = false)
                     (snd (in_collocation_list_var q l))).
Proof.
  split.
  - unfold in_collocation_list_var.
    destruct (length l =? 0); [reflexivity|].
    destruct (existsb negb _ || existsb negb _); [reflexivity|].
    destruct (negb (Str.mem q l)); apply sort_perm.
  - intros Hne Hok. unfold in_collocation_list_var.
    destruct l as [|c l']; [congruence|]. cbn [length Nat.eqb].
    rewrite (no_bad_token_checked Hok).
    destruct (negb (Str.mem q (c :: l'))); apply sort_sorted.
Qed.

(** ** Fast comparator: what an answer [True] means *)

Lemma PartOfSpeech_eqb_eq (a b : PartOfSpeech) :
  PartOfSpeech_eqb a b = true -> a = b.
Proof.
  destruct a, b; cbn; try discriminate; try reflexivity.
  intros H. apply Nat.eqb_eq in H. now subst.
Qed.

Lemma Case_eqb_eq (a b : Case) : Case_eqb a b = true -> a = b.
Proof.
  destruct a, b; cbn; try discriminate; try reflexivity.
  intros H. apply Nat.eqb_eq in H. now subst.
Qed.

Lemma item_eqb_eq (x y : item) : item_eqb x y = true -> x = y.
Proof.
  destruct x as [a|a|], y as [b|b|]; cbn; try discriminate;
    [| |reflexivity].
  - unfold TaggedWord_eqb. intros H.
    apply andb_true_iff in H as [H Hn]. apply andb_true_iff in H as [H Hc].
    apply andb_true_iff in H as [Hw Hp].
    apply str_eqb_eq in Hw, Hn. apply PartOfSpeech_eqb_eq in Hp.
    apply Case_eqb_eq in Hc. destruct a, b. cbn in *. now subst.
  - intros H. apply N.eqb_eq in H. destruct a, b. cbn in *. now subst.
Qed.

Lemma items_eqb_eq (c1 c2 : list item) : items_eqb c1 c2 = true -> c1 = c2.
Proof.
  revert c2. induction c1 as [|x c1 IH]; intros [|y c2]; cbn;
    try discriminate; [reflexivity|].
  intros H. apply andb_true_iff in H as [Hx H].
  apply item_eqb_eq in Hx. apply IH in H. now subst.
Qed.

Lemma normalized_loop_true (c1 c2 : list item) :
  length c1 = length c2 -> normalized_loop c1 c2 = Ok true ->
  exists ws1 ws2,
    c1 = map Tagged ws1 /\ c2 = map Tagged ws2
    /\ map normalized ws1 = map normalized ws2.
Proof.
  revert c2. induction c1 as [|x c1 IH]; intros [|y c2] Hlen H;
    try discriminate.
  - now exists [], [].
  - cbn [normalized_loop index0 bind tl] in H.
    destruct x as [a| |]; [|discriminate H|discriminate H].
    destruct y as [b| |]; [|discriminate H|discriminate H].
    cbn in H. destruct (Str.eqb (normalized a) (normalized b)) eqn:E;
      [|discriminate H].
    apply str_eqb_eq in E. injection Hlen as Hlen.
    destruct (IH c2 Hlen H) as [ws1 [ws2 [-> [-> Hn]]]].
    exists (a :: ws1), (b :: ws2). cbn. now rewrite E, Hn.
Qed.

(** X25. When the fast comparator answers [True], the two sequences are
    equal, or both consist of tagged words only, have the same lemmas
    position by position, and their head words are identical words. *)
Theorem is_identical_collocation_q_true (c1 c2 : list item) :
  is_identical_collocation_q c1 c2 = Ok true ->
  c1 = c2
  \/ exists ws1 ws2 m1 m2,
       c1 = map Tagged ws1 /\ c2 = map Tagged ws2
       /\ map normalized ws1 = map normalized ws2
       /\ get_main_word c1 = Ok m1 /\ get_main_word c2 = Ok m2
       /\ is_identical_word (WStr m1) (WStr m2) = Ok true.
Proof.
  unfold is_identical_collocation_q.
  destruct ((length c1 <? 1) || (length c2 <? 1)); [discriminate|].
  destruct (items_eqb c1 c2) eqn:Ee; [left; now apply items_eqb_eq|].
  destruct (length c1 =? length c2) eqn:El; [|discriminate]. cbn [negb].
  apply Nat.eqb_eq in El.
  destruct (get_main_word c1) as [m1|]; [|discriminate].
  destruct (get_main_word c2) as [m2|]; [|discriminate]. cbn [bind].
  destruct (is_identical_word (WStr m1) (WStr m2)) as [[|]|[]] eqn:Ew;
    cbn; try discriminate.
  intros H. right.
  destruct (normalized_loop_true _ _ El H) as [ws1 [ws2 [H1 [H2 Hn]]]].
  exists ws1, ws2, m1, m2. now repeat split.
Qed.

(** ** Dictionary tagging: only the set of words counts *)

(** X26. [assign_tags] depends on the phrase only through the set of its
    words: two phrases with the same words, in any order and any number
    of times, get the same tagged sequence from a dictionary. *)
Theorem assign_tags_word_set (p1 p2 : phrase_arg)
  (dictionary : list TaggedWord) :
  (forall x, In x (raw_words_of p1) <-> In x (raw_words_of p2)) ->
  assign_tags p1 dictionary = assign_tags p2 dictionary.
Proof.
  intros H. unfold assign_tags. apply filter_ext. intros w.
  apply eq_true_iff_eq. rewrite !mem_In. apply H.
Qed.

End Morph.

(** * The resolver and the spelling with [yo] *)

(** C3, amended. The trigger is a lower-case [yo] in the lower-cased
    pseudo-normal form, so a capital one in the pseudo-normal form
    triggers as well. When it fires, the resolver replaces each
    lower-case [yo] by [ye] in the head word, in the pseudo-normal form
    and in the text of every candidate before any distance is computed:
    the index is the one selected on the replaced inputs, and the index
    and the candidates left are those of a call on the replaced inputs.
    When it does not fire, nothing is replaced and the index is selected
    on the inputs as given, whatever the head word and the candidates
    hold. The replacement leaves no lower-case [yo], keeps a capital one
    in place and changes nothing in a string without lower-case [yo]; so
    for the pseudo-normal form "Ёлка" the trigger fires, the form is kept
    as it is, and the index (0) is not the one (1) of the form spelled
    "Елка". The distance and [lower] are arbitrary. *)
Theorem get_collocation_normal_form_yo (lower : str -> str)
  (distance : str -> str -> float32) (pnormal_form : str)
  (collocations : list Collocation) (main_word : str) :
  (Str.contains [yo] (lower pnormal_form) = true ->
   normalize_yo lower pnormal_form collocations main_word
   = (Str.replace yo ye pnormal_form, map replace_yo_in collocations,
      Str.replace yo ye main_word)
   /\ get_collocation_normal_form lower distance pnormal_form collocations
        main_word
      = (select_index distance (Str.replace yo ye pnormal_form)
           (map replace_yo_in collocations) (Str.replace yo ye main_word),
         map replace_yo_in collocations)
   /\ get_collocation_normal_form lower distance pnormal_form collocations
        main_word
      = get_collocation_normal_form lower distance
          (Str.replace yo ye pnormal_form) (map replace_yo_in collocations)
          (Str.replace yo ye main_word))
  /\ (Str.contains [yo] (lower pnormal_form) = false ->
      normalize_yo lower pnormal_form collocations main_word
      = (pnormal_form, collocations, main_word)
      /\ get_collocation_normal_form lower distance pnormal_form collocations
           main_word
         = (select_index distance pnormal_form collocations main_word,
            collocations))
  /\ (forall s : str,
        ~ In yo (Str.replace yo ye s)
        /\ (forall i, nth_error s i = Some capital_yo ->
                      nth_error (Str.replace yo ye s) i = Some capital_yo)
        /\ (~ In yo s -> Str.replace yo ye s = s))
  /\ (Str.contains [yo] (lower_ru (u "Ёлка")) = true
      /\ normalize_yo lower_ru (u "Ёлка") [coll "елка" 1; coll "Елка" 1]
           (u "лка")
         = (u "Ёлка", [coll "елка" 1; coll "Елка" 1], u "лка")
      /\ fst (get_collocation_normal_form lower_ru distance_01 (u "Ёлка")
                [coll "елка" 1; coll "Елка" 1] (u "лка")) = 0%Z
      /\ fst (get_collocation_normal_form lower_ru distance_01 (u "Елка")
                [coll "елка" 1; coll "Елка" 1] (u "лка")) = 1%Z).
Proof.
  split; [|split; [|split]].
  - intros Hyo.
    destruct (normalize_yo_triggered lower distance pnormal_form collocations
                main_word Hyo) as [Hn Hsame].
    split; [exact Hn|]. split; [|exact Hsame].
    unfold get_collocation_normal_form. now rewrite Hn.
  - intros Hyo.
    assert (Hn : normalize_yo lower pnormal_form collocations main_word
                 = (pnormal_form, collocations, main_word))
      by (unfold normalize_yo; now rewrite Hyo).
    split; [exact Hn|].
    unfold get_collocation_normal_form. now rewrite Hn.
  - intros s. split; [|split].
    + apply str_replace_removes. discriminate.
    + intros i Hi. apply str_replace_keeps; [discriminate | exact Hi].
    + apply str_replace_absent.
  - split; [|split; [|split]]; vm_compute; reflexivity.
Qed.

(** * Concrete runs *)

Example split_doc :
  split (u "  занятие огневых   позиций ")
  = [u "занятие"; u "огневых"; u "позиций"].
Proof. vm_compute. reflexivity. Qed.

Example split_on_doc :
  split_on space (u "a  b") = [u "a"; []; u "b"].
Proof. vm_compute. reflexivity. Qed.

Example yo_doc : u "ёе" = [yo; ye].
Proof. vm_compute. reflexivity. Qed.

Example get_main_word_doc1 :
  get_main_word [Tagged (tw "огня" noun genitive "огонь");
                 Tagged (tw "артиллерии" noun genitive "артиллерия")]
  = Ok (u "огня").
Proof. vm_compute. reflexivity. Qed.

Example get_main_word_doc2 :
  get_main_word [Tagged (tw "огонь" noun nominative "огонь");
                 Tagged (tw "артиллерии" noun genitive "артиллерия")]
  = Ok (u "огонь").
Proof. vm_compute. reflexivity. Qed.

Example get_main_word_doc3 :
  get_main_word
    [Tagged (tw "парково-хозяйственный" adjective nominative
                "парково-хозяйственный");
     Tagged (tw "день" noun nominative "день")]
  = Ok (u "день").
Proof. vm_compute. reflexivity. Qed.

Example get_main_word_doc4 :
  get_main_word [Tagged (tw "слушать" verb case_none "слушать");
                 Tagged (tw "громко" adverb case_none "громко")]
  = Raise ValueError.
Proof. vm_compute. reflexivity. Qed.

(** A phrase of two adjectives holds no noun, and its head is not the
    empty string. *)
Lemma get_main_word_no_noun_not_empty :
  pos_count noun (map pos two_adjectives) = 0
  /\ pos_in verb (map pos two_adjectives) = false
  /\ get_main_word (map Tagged two_adjectives) = Ok (u "большой")
  /\ get_main_word (map Tagged two_adjectives) <> Ok [].
Proof.
  repeat split; try (vm_compute; reflexivity).
  vm_compute. discriminate.
Qed.

Lemma get_main_word_selection_witness :
  get_main_word (map Tagged fire_of_artillery) = Ok (u "большой").
Proof.
  refine (proj1 (proj1 (proj2 (get_main_word_selection fire_of_artillery) _) _)).
  - vm_compute. reflexivity.
  - vm_compute. lia.
Defined.

Example make_substrs_doc1 :
  make_substrs (u "занятие огневых позиций")
  = AList [u "занятие огневых"; u "огневых позиций"].
Proof. vm_compute. reflexivity. Qed.

Example make_substrs_doc2 :
  make_substrs (u "распределение построения боевых порядков")
  = AList [u "распределение построения боевых";
           u "построения боевых порядков";
           u "распределение построения";
           u "построения боевых";
           u "боевых порядков"].
Proof. vm_compute. reflexivity. Qed.

Lemma make_substrs_spec_witness :
  exists pairs,
    make_substrs (u "занятие огневых позиций")
    = AList (map (sub_phrase (Str.split (u "занятие огневых позиций"))) pairs)
    /\ (forall k j, In (k, j) pairs <-> 2 <= k /\ k <= 3 - 1 /\ j + k <= 3)
    /\ StronglySorted before pairs.
Proof.
  refine (proj1 (make_substrs_spec (u "занятие огневых позиций")) _).
  vm_compute. discriminate.
Defined.

Example assign_tags_doc :
  assign_tags (PStr (u "боевой порядок")) doc_dictionary
  = [tw "боевой" noun nominative "боевой";
     tw "порядок" noun nominative "порядок"].
Proof. vm_compute. reflexivity. Qed.

Example binary_identity_check_doc :
  binary_identity_check lower_ru is_correct_word_ru tag_ru 3
    (tag_ru (u "огонь артиллерии")) doc_candidates
  = Some (Ok [(0, true); (1, false); (2, false); (3, true)]%Z).
Proof. vm_compute. reflexivity. Qed.

Example is_identical_word_doc :
  is_identical_word lower_ru is_correct_word_ru tag_ru
    (WStr (u "огонь")) (WStr (u "огня")) = Ok true
  /\ is_identical_word lower_ru is_correct_word_ru tag_ru
       (WStr []) (WStr (u "огонь")) = Ok false
  /\ is_identical_word lower_ru is_correct_word_ru tag_ru
       (WStr (u "огонь артиллерии")) (WStr (u "Синий")) = Raise ValueError
  /\ is_identical_word lower_ru is_correct_word_ru tag_ru
       WOther (WStr (u "в начале были")) = Raise TypeError.
Proof. repeat split; vm_compute; reflexivity. Qed.

Example in_collocation_list_var_doc :
  in_collocation_list_var lower_ru is_correct_word_ru tag_ru
    (u "огонь артиллерии")
    [u "основная задача"; u "стрелкового оружия"; u "огня артиллерии"]
  = (Ok (true, Some (u "огня артиллерии")),
     [u "огня артиллерии"; u "основная задача"; u "стрелкового оружия"]).
Proof. vm_compute. reflexivity. Qed.

Lemma binary_identity_check_is_linear_scan_witness :
  binary_identity_check lower_ru is_correct_word_ru tag_ru 4
    (tag_ru (u "огонь артиллерии")) doc_candidates
  = Some (linear_identity_scan lower_ru is_correct_word_ru tag_ru
            (tag_ru (u "огонь артиллерии")) doc_candidates).
Proof.
  apply binary_identity_check_is_linear_scan.
  - vm_compute. discriminate.
  - vm_compute. lia.
Defined.

Lemma is_identical_word_reflexive_symmetric_witness :
  is_identical_word lower_ru is_correct_word_ru tag_ru
    (WStr (u "огонь")) (WStr (u "огонь")) = Ok true
  /\ is_identical_word lower_ru is_correct_word_ru tag_ru
       (WStr (u "огонь")) (WStr (u "огня"))
     = is_identical_word lower_ru is_correct_word_ru tag_ru
         (WStr (u "огня")) (WStr (u "огонь")).
Proof.
  apply is_identical_word_reflexive_symmetric; vm_compute; reflexivity.
Defined.

(** The membership check with a digit token in the query and an empty
    candidate list: no value error. *)
Lemma in_collocation_list_var_empty_list_first :
  bad_token is_correct_word_ru (u "огонь 123") []
  /\ in_collocation_list_var lower_ru is_correct_word_ru tag_ru
       (u "огонь 123") []
     = (Ok (false, None), []).
Proof.
  split; [|reflexivity].
  left. exists (u "123"). split; [|vm_compute; reflexivity].
  vm_compute. right. left. reflexivity.
Qed.

Lemma in_collocation_list_var_guards_witness :
  in_collocation_list_var lower_ru is_correct_word_ru tag_ru
    (u "огонь 123") [u "огня артиллерии"]
  = (Raise ValueError, [u "огня артиллерии"]).
Proof.
  refine (proj2 (in_collocation_list_var_guards lower_ru is_correct_word_ru
                   tag_ru (u "огонь 123") [u "огня артиллерии"]) _ _).
  - discriminate.
  - left. exists (u "123"). split; [|vm_compute; reflexivity].
    vm_compute. right. left. reflexivity.
Defined.

(** The head word is spelled with [yo], the pseudo-normal form and the
    candidate with [ye]: nothing is replaced, the head word is not found
    in the candidate and no index is selected, while the head word
    spelled with [ye] selects the candidate. *)
Lemma get_collocation_normal_form_yo_in_head_only :
  Str.contains [yo] (u "ёж") = true
  /\ normalize_yo lower_ru (u "еж морской") [coll "еж морской" 2] (u "ёж")
     = (u "еж морской", [coll "еж морской" 2], u "ёж")
  /\ fst (get_collocation_normal_form lower_ru distance_01
            (u "еж морской") [coll "еж морской" 2] (u "ёж")) = (-1)%Z
  /\ fst (get_collocation_normal_form lower_ru distance_01
            (u "еж морской") [coll "еж морской" 2] (u "еж")) = 0%Z.
Proof. repeat split; vm_compute; reflexivity. Qed.

Lemma get_collocation_normal_form_yo_witness :
  (normalize_yo lower_ru (u "ёж морской")
     [coll "ежа морского" 2; coll "ёж морской" 2] (u "ёж")
   = (u "еж морской", [coll "ежа морского" 2; coll "еж морской" 2], u "еж")
   /\ get_collocation_normal_form lower_ru distance_01 (u "ёж морской")
        [coll "ежа морского" 2; coll "ёж морской" 2] (u "ёж")
      = (select_index distance_01 (u "еж морской")
           [coll "ежа морского" 2; coll "еж морской" 2] (u "еж"),
         [coll "ежа морского" 2; coll "еж морской" 2])
   /\ get_collocation_normal_form lower_ru distance_01 (u "ёж морской")
        [coll "ежа морского" 2; coll "ёж морской" 2] (u "ёж")
      = get_collocation_normal_form lower_ru distance_01 (u "еж морской")
          [coll "ежа морского" 2; coll "еж морской" 2] (u "еж"))
  /\ (normalize_yo lower_ru (u "еж морской") [coll "ёж морской" 2] (u "ёж")
      = (u "еж морской", [coll "ёж морской" 2], u "ёж")
      /\ get_collocation_normal_form lower_ru distance_01 (u "еж морской")
           [coll "ёж морской" 2] (u "ёж")
         = (select_index distance_01 (u "еж морской") [coll "ёж морской" 2]
              (u "ёж"),
            [coll "ёж морской" 2])).
Proof.
  split.
  - apply (proj1 (get_collocation_normal_form_yo lower_ru distance_01
                    (u "ёж морской")
                    [coll "ежа морского" 2; coll "ёж морской" 2] (u "ёж"))).
    vm_compute. reflexivity.
  - apply (proj1 (proj2 (get_collocation_normal_form_yo lower_ru distance_01
                           (u "еж морской") [coll "ёж морской" 2]
                           (u "ёж")))).
    vm_compute. reflexivity.
Defined.

Example get_collocation_normal_form_run :
  get_collocation_normal_form lower_ru distance_01 (u "ёж морской")
    [coll "ежа морского" 2; coll "ёж морской" 2] (u "ёж")
  = (1%Z, [coll "ежа морского" 2; coll "еж морской" 2]).
Proof. vm_compute. reflexivity. Qed.

(** The distances 0.1 and 0.25 as [float32]. Their difference, rounded
    to binary32, is the [float32] next above 0.15 and exceeds the
    threshold, though the difference of the same two values in binary64
    does not. The candidate at 0.1 does not hold the head word and the
    one at 0.25 is beyond the threshold: no index is selected. *)
Example get_collocation_normal_form_float32_run :
  let tenth := S754_finite false 13421773 (-27) in
  let quarter := S754_finite false 8388608 (-25) in
  float32_sub quarter tenth = S754_finite false 10066330 (-26)
  /\ within_threshold quarter tenth = false
  /\ PrimFloat.leb
       (PrimFloat.sub (float32_to_float quarter) (float32_to_float tenth))
       DIST_THRESHOLD = true
  /\ fst (get_collocation_normal_form lower_ru
            (distance_by_table [(u "огня артиллерии", tenth);
                                (u "огонь артиллерией", quarter)])
            (u "огонь артиллерии")
            [coll "огня артиллерии" 2; coll "огонь артиллерией" 2]
            (u "огонь")) = (-1)%Z
  /\ fst (get_collocation_normal_form lower_ru
            (distance_by_table [(u "огня артиллерии", tenth);
                                (u "огонь артиллерией", quarter)])
            (u "огонь артиллерии")
            [coll "огня артиллерии" 2; coll "огонь артиллерией" 2]
            (u "огня")) = 0%Z.
Proof. cbv zeta. repeat split; vm_compute; reflexivity. Qed.

(** The longer candidate "по целям огня артиллерии" embeds
    "огня артиллерии", which the fast comparator finds identical to the
    short candidate "огонь артиллерии"; its sub-phrase "по целям" has no
    word in the dictionary, the comparison raises, and the candidate is
    not returned. *)
Lemma get_longer_terms_drops_candidate :
  let line := coll "огонь артиллерии" 2 in
  let gram := coll "по целям огня артиллерии" 4 in
  possible_identic_lines line gram
  = [u "по целям"; u "целям огня"; u "огня артиллерии"]
  /\ compare_substr lower_ru is_correct_word_ru tag_ru line fire_dictionary
       (u "по целям") = Raise ValueError
  /\ compare_substr lower_ru is_correct_word_ru tag_ru line fire_dictionary
       (u "огня артиллерии") = Ok true
  /\ get_longer_terms lower_ru is_correct_word_ru tag_ru line [gram]
       fire_dictionary = [].
Proof. repeat split; vm_compute; reflexivity. Qed.

Example get_longer_terms_run :
  get_longer_terms lower_ru is_correct_word_ru tag_ru
    (coll "огонь артиллерии" 2)
    [coll "по целям огня артиллерии" 4; coll "огня артиллерии большой" 3;
     coll "вызов огня" 2]
    fire_dictionary
  = [coll "огня артиллерии большой" 3].
Proof. vm_compute. reflexivity. Qed.

Lemma is_identical_collocation_q_swallows_witness :
  is_identical_collocation_q lower_ru is_correct_word_ru tag_ru tank_a tank_b
  = Ok false.
Proof.
  apply (is_identical_collocation_q_swallows lower_ru is_correct_word_ru
           tag_ru tank_a tank_b (m1 := u "т34") (m2 := u "т62"));
    vm_compute; try reflexivity; lia.
Defined.

(** * Properties of the tagger *)

Module TaggerFacts.

Import Tagger.

Section Facts.

Variable char_isalpha : char -> bool.
Variable analyze : str -> result (option (PartOfSpeech * Case * str)).
Variable non_whitespace_separators : str.

Local Abbreviation validate := (Tagger.validate char_isalpha).
Local Abbreviation tag_word := (Tagger.tag_word char_isalpha analyze).
Local Abbreviation tag_words :=
  (Tagger.tag_words char_isalpha analyze non_whitespace_separators).
Local Abbreviation tag_collocation :=
  (Tagger.tag_collocation char_isalpha analyze non_whitespace_separators).
Local Abbreviation existing_separators :=
  (Tagger.existing_separators non_whitespace_separators).

Lemma findall_from_runs (cur s : str) :
  (forall c, In c cur -> word_symbol c = true) ->
  forall p, In p (findall_from cur s) ->
            p <> [] /\ forallb word_symbol p = true.
Proof.
  revert cur. induction s as [|c s IH]; intros cur Hcur p Hp; cbn in Hp.
  - destruct cur as [|c0 cur']; [destruct Hp|]. destruct Hp as [<-|[]].
    split.
    + intros E. apply (f_equal (@length char)) in E.
      rewrite length_rev in E. discriminate E.
    + apply forallb_forall. intros c Hc. apply Hcur. now apply in_rev.
  - destruct (word_symbol c) eqn:Ec.
    + apply (IH (c :: cur)); [|exact Hp].
      intros c1 [<-|Hc1]; [exact Ec | now apply Hcur].
    + destruct cur as [|c0 cur']; [apply (IH [] ltac:(intros ? []) p Hp)|].
      destruct Hp as [<-|Hp]; [|apply (IH [] ltac:(intros ? []) p Hp)].
      split.
      * intros E. apply (f_equal (@length char)) in E.
        rewrite length_rev in E. discriminate E.
      * apply forallb_forall. intros c1 Hc1. apply Hcur. now apply in_rev.
Qed.

(** What [validate] lets through: the word itself, not empty, or its only
    run of word characters. *)
Lemma validate_true (word w : str) :
  validate word = Ok (true, w) ->
  w <> []
  /\ (w = word \/ (findall word = [w] /\ forallb word_symbol w = true)).
Proof.
  unfold Tagger.validate.
  destruct (isalpha char_isalpha word || (0 <? find_char hyphen word)%Z)
    eqn:Ev; cbn [negb].
  - intros H. injection H as <-. split; [|now left].
    intros ->. discriminate Ev.
  - destruct (length (map _ word) =? 0); [discriminate|].
    destruct (ratio_ok _ _); [|discriminate].
    destruct (findall word) as [|p [|? ?]] eqn:Ef; cbn; try discriminate.
    intros H. injection H as <-.
    assert (Hp : In p (findall word)) by (rewrite Ef; now left).
    apply (findall_from_runs [] word ltac:(intros ? [])) in Hp as [Hne Hall].
    split; [exact Hne|]. right. now split.
Qed.

(** X27. A tagged word that [tag_word] returns never has an empty surface
    form: the surface form is the word given, or else the only run of
    characters of [[a-zA-Zа-яА-Я-]] in it. The empty string gets [None]
    without a call of the analyzer. *)
Theorem tag_word_surface_form (raw : str) (t : TaggedWord) :
  tag_word [] = Ok None
  /\ (tag_word raw = Ok (Some t) ->
      word t <> []
      /\ (word t = raw
          \/ (findall raw = [word t]
              /\ forallb word_symbol (word t) = true))).
Proof.
  split; [reflexivity|].
  unfold Tagger.tag_word.
  destruct (validate raw) as [[[|] w]|e] eqn:Ev; cbn; try discriminate.
  destruct (analyze w) as [[[[p c] n]|]|e]; cbn; try discriminate.
  intros H. injection H as <-. cbn. now apply (validate_true raw).
Qed.

Lemma find_char_from_absent (i : Z) (c : char) (s : str) :
  ~ In c s -> find_char_from i c s = (-1)%Z.
Proof.
  revert i. induction s as [|x s IH]; intros i H; [reflexivity|]. cbn.
  destruct (x =? c)%N eqn:E;
    [apply N.eqb_eq in E; exfalso; apply H; now left|].
  apply IH. intros Hin. apply H. now right.
Qed.

Lemma findall_from_none (s : str) :
  (forall c, In c s -> word_symbol c = false) -> findall_from [] s = [].
Proof.
  induction s as [|c s IH]; intros H; [reflexivity|]. cbn.
  rewrite (H c) by now left. apply IH. intros x Hx. apply H. now right.
Qed.

(** X28. [tag_word] raises an index error on a word made of letters that
    are alphabetic but outside [[a-zA-Zа-яА-Я-]] followed by one
    character that is neither alphabetic nor in that class, when the
    letters are 70% of the characters or more: the word passes the ratio
    test, the search for runs finds none, and the first run is read all
    the same. *)
Theorem tag_word_index_error (letters : str) (d : char) :
  (forall c, In c letters -> char_isalpha c = true /\ word_symbol c = false) ->
  char_isalpha d = false -> word_symbol d = false ->
  ratio_ok (length letters) (S (length letters)) = true ->
  tag_word (letters ++ [d]) = Raise IndexError.
Proof.
  intros Hl Hd Hwd Hratio.
  unfold Tagger.tag_word, Tagger.validate.
  assert (Halpha : isalpha char_isalpha (letters ++ [d]) = false).
  { unfold isalpha. rewrite forallb_app. cbn. rewrite Hd.
    now rewrite andb_false_r, andb_false_r. }
  assert (Hhy : forall c, In c (letters ++ [d]) -> c <> hyphen).
  { intros c Hc E. subst c. apply in_app_iff in Hc as [Hc|[Hc|[]]].
    - apply Hl in Hc as [_ Hc]. discriminate Hc.
    - subst d. discriminate Hwd. }
  rewrite Halpha. unfold find_char.
  rewrite find_char_from_absent by (intros Hin; now apply (Hhy hyphen)).
  cbn [orb Z.ltb Z.compare negb].
  rewrite length_map, length_app. cbn [length].
  replace (length letters + 1 =? 0) with false
    by (symmetry; apply Nat.eqb_neq; lia).
  assert (Hcount : length (filter id
                     (map (fun symbol => char_isalpha symbol
                                         || (symbol =? hyphen)%N)
                          (letters ++ [d])))
                   = length letters).
  { rewrite map_app, filter_app, length_app. cbn [map filter].
    rewrite Hd. replace (d =? hyphen)%N with false
      by (symmetry; apply N.eqb_neq; apply Hhy, in_app_iff; right; now left).
    cbn. rewrite Nat.add_0_r.
    clear Halpha Hhy Hratio.
    induction letters as [|c l IH]; [reflexivity|]. cbn.
    destruct (Hl c (or_introl eq_refl)) as [-> _]. cbn. f_equal.
    apply IH. intros x Hx. apply Hl. now right. }
  rewrite Hcount. replace (length letters + 1) with (S (length letters)) by lia.
  rewrite Hratio. unfold findall.
  rewrite findall_from_none; [reflexivity|].
  intros c Hc. apply in_app_iff in Hc as [Hc|[<-|[]]];
    [now apply Hl | exact Hwd].
Qed.

Lemma contains_char (c : char) (s : str) :
  Str.contains [c] s = existsb (N.eqb c) s.
Proof.
  induction s as [|x s IH]; [reflexivity|].
  cbn [Str.contains Str.starts_with existsb]. rewrite IH.
  now rewrite andb_true_r.
Qed.

Lemma contains_char_In (c : char) (s : str) :
  Str.contains [c] s = true <-> In c s.
Proof.
  rewrite contains_char, existsb_exists. split.
  - intros [x [Hx E]]. apply N.eqb_eq in E. now subst.
  - intros H. exists c. split; [exact H | apply N.eqb_refl].
Qed.

Lemma existing_separators_none (word : str) :
  (forall s, In s non_whitespace_separators -> ~ In s word) ->
  existing_separators word = [].
Proof.
  intros H. unfold Tagger.existing_separators.
  rewrite (filter_ext_in _ (fun _ => false)), filter_false; [reflexivity|].
  intros s Hs. destruct (Str.contains [s] word) eqn:E; [|reflexivity].
  apply contains_char_In in E. now apply H in E.
Qed.

Lemma tag_words_plain (words : list str) (acc : list item) :
  (forall word s, In word words -> In s non_whitespace_separators ->
                  ~ In s word) ->
  tag_words words acc
  = (ts <- comprehension tag_word words ;; Ok (acc ++ kept ts)).
Proof.
  revert acc. induction words as [|word rest IH]; intros acc H.
  - cbn. now rewrite app_nil_r.
  - cbn [Tagger.tag_words comprehension].
    rewrite existing_separators_none
      by (intros s Hs; apply (H word s); [now left | exact Hs]).
    cbn [length Nat.ltb Nat.leb].
    destruct (tag_word word) as [[w|]|e]; cbn [bind]; [| |reflexivity].
    + rewrite IH by (intros w' s Hw'; apply H; now right).
      destruct (comprehension tag_word rest); cbn; [|reflexivity].
      now rewrite <- app_assoc.
    + rewrite IH by (intros w' s Hw'; apply H; now right).
      destruct (comprehension tag_word rest); reflexivity.
Qed.

Lemma kept_tagged (ts : list (option TaggedWord)) :
  exists ws, kept ts = map Tagged ws /\ length ws <= length ts
             /\ forall w, In w ws -> In (Some w) ts.
Proof.
  induction ts as [|t ts [ws [E [Hl Hin]]]]; [now exists []|].
  destruct t as [w|].
  - exists (w :: ws). change (kept (Some w :: ts)) with (Tagged w :: kept ts).
    rewrite E. cbn. repeat split; [lia|].
    intros x [<-|Hx]; [now left | right; now apply Hin].
  - exists ws. change (kept (None :: ts)) with (kept ts).
    rewrite E. cbn. repeat split; [lia|].
    intros x Hx. right. now apply Hin.
Qed.

(** X29. On a text none of whose words holds a separator character,
    [tag_collocation] tags the words one by one and leaves out those
    that [tag_word] gives [None] for. What it returns then holds tagged
    words only, at most one per word of the text, each with a non-empty
    surface form. *)
Theorem tag_collocation_plain_words (text : str) :
  (forall word s, In word (Str.split text) ->
                  In s non_whitespace_separators -> ~ In s word) ->
  tag_collocation text
  = (ts <- comprehension tag_word (Str.split text) ;; Ok (kept ts))
  /\ forall items,
       tag_collocation text = Ok items ->
       exists ws,
         items = map Tagged ws
         /\ length ws <= length (Str.split text)
         /\ forall w, In w ws -> word w <> [].
Proof.
  intros H.
  assert (E : tag_collocation text
              = (ts <- comprehension tag_word (Str.split text) ;;
                 Ok (kept ts)))
    by (unfold Tagger.tag_collocation; now rewrite tag_words_plain).
  split; [exact E|]. intros items Hi. rewrite E in Hi.
  destruct (comprehension tag_word (Str.split text)) as [ts|e] eqn:Ec;
    [|discriminate Hi].
  cbn in Hi. injection Hi as <-.
  destruct (kept_tagged ts) as [ws [Ek [Hl Hin]]].
  exists ws. split; [exact Ek|]. split.
  - apply comprehension_length in Ec. lia.
  - intros w Hw. apply Hin in Hw.
    apply (comprehension_Ok _ _ Ec) in Hw as [raw [_ Hraw]].
    unfold Tagger.tag_word in Hraw.
    destruct (validate raw) as [[[|] w']|e] eqn:Ev; cbn in Hraw;
      try discriminate.
    destruct (analyze w') as [[[[p c] n]|]|e]; cbn in Hraw;
      try discriminate.
    injection Hraw as <-. cbn. now apply (validate_true raw).
Qed.

Lemma existsb_absent (s : char) (l : str) :
  ~ In s l -> existsb (N.eqb s) l = false.
Proof.
  intros H. destruct (existsb (N.eqb s) l) eqn:E; [|reflexivity].
  apply existsb_exists in E as [x [Hx Ex]]. apply N.eqb_eq in Ex.
  now subst.
Qed.

Lemma find_char_from_app (i : Z) (c : char) (a b : str) :
  ~ In c a ->
  find_char_from i c (a ++ c :: b) = (i + Z.of_nat (length a))%Z.
Proof.
  revert i. induction a as [|x a IH]; intros i H; cbn [app find_char_from].
  - rewrite N.eqb_refl. cbn. lia.
  - destruct (x =? c)%N eqn:E;
      [apply N.eqb_eq in E; exfalso; apply H; now left|].
    rewrite IH by (intros Hin; apply H; now right). cbn [length]. lia.
Qed.

Lemma sorted_by_position_constant (k : Z) (l : list char) :
  sorted_by_position (map (fun s => (s, k)) l) = map (fun s => (s, k)) l.
Proof.
  unfold sorted_by_position. induction l as [|x l IH]; [reflexivity|].
  cbn [map fold_right]. rewrite IH.
  destruct l as [|y l']; [reflexivity|]. cbn.
  now rewrite Z.ltb_irrefl.
Qed.

Lemma lstrip_head (chars : str) (x : char) (s : str) :
  ~ In x chars -> lstrip chars (x :: s) = x :: s.
Proof.
  intros H. cbn. destruct (Str.contains [x] chars) eqn:E; [|reflexivity].
  apply contains_char_In in E. contradiction.
Qed.

Lemma starts_with_refl (s : str) : Str.starts_with s s = true.
Proof.
  induction s as [|x s IH]; [reflexivity|]. cbn.
  now rewrite N.eqb_refl, IH.
Qed.

Lemma as_tagged_separator (items : list item) (s : Separator) :
  In (Sep s) items -> as_tagged items = None.
Proof.
  induction items as [|x items IH]; intros H; [destruct H|].
  destruct H as [->|H]; [reflexivity|].
  destruct x as [w| |]; cbn; [|reflexivity|reflexivity].
  now rewrite (IH H).
Qed.

(** X30. A word with one separator character inside (letters before and
    after it, no other separator) is tagged as a whole, and the separator
    is put after it, once for each time it stands in
    [non_whitespace_separators]. The tagged sequence of such a
    one-word text therefore holds a separator, and its head word is
    undetermined: [get_main_word] gives the empty string. *)
Theorem tag_collocation_inner_separator (text a b : str) (c : char) :
  Str.split text = [a ++ c :: b] -> a <> [] -> b <> [] ->
  In c non_whitespace_separators ->
  (forall s, In s non_whitespace_separators -> ~ In s a /\ ~ In s b) ->
  tag_collocation text
  = (t <- tag_word (a ++ c :: b) ;;
     Ok (to_item t
           :: map (fun s => Sep {| symbol := s |})
                  (filter (fun s => (s =? c)%N) non_whitespace_separators)))
  /\ forall items,
       tag_collocation text = Ok items ->
       In (Sep {| symbol := c |}) items /\ get_main_word items = Ok [].
Proof.
  intros Hsplit Ha Hb Hc Hsep.
  set (raw := a ++ c :: b) in *.
  set (found := filter (fun s => (s =? c)%N) non_whitespace_separators).
  assert (Hfound : In c found)
    by (apply filter_In; split; [exact Hc | apply N.eqb_refl]).
  assert (Hex : existing_separators raw
                = map (fun s => (s, Z.of_nat (length a))) found).
  { unfold Tagger.existing_separators.
    rewrite (filter_ext_in _ (fun s => (s =? c)%N)).
    - fold found. rewrite <- sorted_by_position_constant. f_equal.
      apply map_ext_in. intros s Hs. apply filter_In in Hs as [Hs E].
      apply N.eqb_eq in E. subst s. unfold find_char, raw.
      rewrite find_char_from_app by (apply (Hsep c Hc)). reflexivity.
    - intros s Hs. rewrite contains_char. unfold raw.
      rewrite existsb_app. cbn [existsb].
      rewrite !existsb_absent by (apply (Hsep s Hs)).
      now rewrite orb_false_r. }
  assert (Hstrip : strip non_whitespace_separators raw = raw).
  { unfold strip.
    assert (H1 : lstrip non_whitespace_separators raw = raw).
    { unfold raw. destruct a as [|x a']; [congruence|].
      cbn [app]. apply lstrip_head. intros Hx.
      destruct (Hsep x Hx) as [H _]. apply H. now left. }
    rewrite H1.
    assert (H2 : lstrip non_whitespace_separators (rev raw) = rev raw).
    { unfold raw. rewrite rev_app_distr. cbn [rev].
      destruct (rev b) as [|y rb] eqn:Erb.
      - apply (f_equal (@length char)) in Erb. rewrite length_rev in Erb.
        destruct b; [congruence | discriminate Erb].
      - rewrite <- !app_assoc. cbn [app]. apply lstrip_head.
        intros Hy. destruct (Hsep y Hy) as [_ H]. apply H.
        apply in_rev. rewrite Erb. now left. }
    now rewrite H2, rev_involutive. }
  assert (Hpos : Tagger.find raw raw = 0%Z).
  { unfold Tagger.find. destruct raw; cbn [find_from];
      [reflexivity|]. now rewrite starts_with_refl. }
  assert (Hlen : 0 < length a) by (destruct a; [congruence | cbn; lia]).
  assert (E : tag_collocation text
              = (t <- tag_word raw ;;
                 Ok (to_item t :: map (fun s => Sep {| symbol := s |}) found))).
  { unfold Tagger.tag_collocation. rewrite Hsplit.
    cbn [Tagger.tag_words]. rewrite Hex, Hstrip, Hpos.
    destruct found as [|f0 found'] eqn:Ef; [destruct Hfound|].
    rewrite <- Ef in *. rewrite length_map, Ef. cbn [length Nat.ltb Nat.leb].
    rewrite <- Ef.
    destruct (tag_word raw) as [t|e]; cbn [bind]; [|reflexivity].
    rewrite (filter_ext_in _ (fun _ => false)), filter_false.
    2:{ intros x Hx. apply in_map_iff in Hx as [s [<- _]]. cbn [snd].
        apply Z.ltb_ge. lia. }
    rewrite (filter_ext_in (fun s => (0 <? snd s)%Z) (fun _ => true)),
      filter_true.
    2:{ intros x Hx. apply in_map_iff in Hx as [s [<- _]]. cbn [snd].
        apply Z.ltb_lt. lia. }
    cbn [map length Nat.eqb negb andb app]. now rewrite map_map. }
  split; [exact E|]. intros items Hi. rewrite E in Hi.
  destruct (tag_word raw) as [t|e]; [|discriminate Hi].
  cbn in Hi. injection Hi as <-.
  assert (Hin : In (Sep {| symbol := c |})
                   (to_item t :: map (fun s => Sep {| symbol := s |}) found)).
  { right. apply in_map_iff. now exists c. }
  split; [exact Hin|].
  apply get_main_word_not_tagged. now apply (as_tagged_separator _ _ Hin).
Qed.

End Facts.

End TaggerFacts.

(** * Concrete runs of the further properties *)

Example tag_day_doc :
  tag_day (u "парково-хозяйственный день")
  = [Tagged (tw "парково-хозяйственный" adjective nominative
                "парково-хозяйственный");
     Sep {| symbol := 45%N |};
     Tagged (tw "день" noun nominative "день")].
Proof. vm_compute. reflexivity. Qed.

Example tag_word_runs :
  Tagger.tag_word is_letter (analyze_with day_lexicon) (u "день,")
  = Ok (Some (tw "день" noun nominative "день"))
  /\ Tagger.tag_word is_letter (analyze_with day_lexicon) (u "(день)")
     = Ok None
  /\ Tagger.tag_word is_letter (analyze_with day_lexicon) (u "ёёё1")
     = Raise IndexError.
Proof. repeat split; vm_compute; reflexivity. Qed.

Lemma is_word_in_tuple_list_always_true_witness :
  is_word_in_tuple_list
    [Tagged (tw "огонь" noun nominative "огонь");
     Tagged (tw "артиллерии" noun genitive "артиллерия")]
    (u "мощности")
  = Ok true.
Proof.
  refine (proj1 (@is_word_in_tuple_list_always_true
                   [tw "огонь" noun nominative "огонь";
                    tw "артиллерии" noun genitive "артиллерия"]
                   (u "мощности") _ _));
    vm_compute; discriminate.
Defined.

Lemma get_main_word_single_noun_witness :
  get_main_word
    [Tagged (tw "большой" adjective nominative "большой");
     Tagged (tw "мощности" noun genitive "мощность")]
  = Ok (u "мощности").
Proof.
  apply (@get_main_word_single_noun
           [tw "большой" adjective nominative "большой";
            tw "мощности" noun genitive "мощность"]
           (tw "мощности" noun genitive "мощность"));
    vm_compute; reflexivity.
Defined.

Example get_collocation_normal_form_old_run :
  get_collocation_normal_form_old
    [tag_ru (u "огня артиллерии"); tag_ru (u "огонь артиллерии")]
  = Ok 1%Z.
Proof. vm_compute. reflexivity. Qed.

Lemma find_candidate_by_id_own_id_witness :
  find_candidate_by_id linked_candidates 2
  = (Some (linked "огня артиллерии" 2 [1%Z] 2), None).
Proof.
  apply (@find_candidate_by_id_own_id linked_candidates
           (linked "огня артиллерии" 2 [1%Z] 2)).
  - vm_compute. repeat constructor; cbn; intuition discriminate.
  - vm_compute. right. left. reflexivity.
Defined.

Example find_candidate_by_id_run :
  find_candidate_by_id linked_candidates 7 = (None, Some (true, true)).
Proof. vm_compute. reflexivity. Qed.

Lemma binary_identity_check_log_depth_witness :
  binary_identity_check lower_ru is_correct_word_ru tag_ru 3
    (tag_ru (u "огонь артиллерии")) doc_candidates
  = Some (linear_identity_scan lower_ru is_correct_word_ru tag_ru
            (tag_ru (u "огонь артиллерии")) doc_candidates).
Proof.
  apply (@binary_identity_check_log_depth lower_ru is_correct_word_ru tag_ru
           (tag_ru (u "огонь артиллерии")) doc_candidates).
  vm_compute. discriminate.
Defined.

Lemma count_includes_matching_witness :
  count_includes lower_ru is_correct_word_ru tag_ru 3
    (tag_ru (u "огонь артиллерии")) doc_collocations
  = Some (matching_candidates lower_ru is_correct_word_ru tag_ru
            (tag_ru (u "огонь артиллерии")) doc_collocations).
Proof.
  apply (@count_includes_matching lower_ru is_correct_word_ru tag_ru
           (tag_ru (u "огонь артиллерии")) doc_collocations).
  vm_compute. discriminate.
Defined.

Example count_includes_doc :
  count_includes lower_ru is_correct_word_ru tag_ru 3
    (tag_ru (u "огонь артиллерии")) doc_collocations
  = Some (Ok [(0%Z, tag_ru (u "огонь артиллерии"));
              (3%Z, tag_ru (u "огня артиллерии"))]).
Proof. vm_compute. reflexivity. Qed.

Lemma is_identical_word_lemma_equality_witness :
  is_identical_word lower_ru is_correct_word_ru tag_ru
    (WStr (u "огонь")) (WStr (u "огня"))
  = Ok (Str.eqb (u "огонь") (u "огонь"))
  /\ (is_identical_word lower_ru is_correct_word_ru tag_ru
        (WStr (u "огонь")) (WStr (u "огня")) = Ok true ->
      is_identical_word lower_ru is_correct_word_ru tag_ru
        (WStr (u "огня")) (WStr (u "Огонь")) = Ok true ->
      is_identical_word lower_ru is_correct_word_ru tag_ru
        (WStr (u "огонь")) (WStr (u "Огонь")) = Ok true).
Proof.
  apply (@is_identical_word_lemma_equality lower_ru is_correct_word_ru tag_ru
           (u "огонь") (u "огня") (u "Огонь")
           (u "огонь") (u "огонь") (u "огонь"));
    vm_compute; reflexivity.
Defined.

Lemma is_identical_collocation_q_undetermined_witness :
  is_identical_collocation_q lower_ru is_correct_word_ru tag_ru
    (tag_day (u "парково-хозяйственный день"))
    (tag_day (u "парково-хозяйственного дня"))
  = Ok false
  /\ is_identical_collocation_q lower_ru is_correct_word_ru tag_ru
       (tag_day (u "парково-хозяйственного дня"))
       (tag_day (u "парково-хозяйственный день"))
     = Ok false.
Proof.
  apply (@is_identical_collocation_q_undetermined lower_ru is_correct_word_ru
           tag_ru (tag_day (u "парково-хозяйственный день"))
           (tag_day (u "парково-хозяйственного дня")) []);
    vm_compute; try reflexivity; discriminate.
Defined.

Lemma is_identical_collocation_undetermined_witness :
  is_identical_collocation lower_ru is_correct_word_ru tag_day
    (u "парково-хозяйственный день") (u "парково-хозяйственного дня")
  = Ok false
  /\ is_identical_collocation lower_ru is_correct_word_ru tag_day
       (u "парково-хозяйственного дня") (u "парково-хозяйственный день")
     = Ok false.
Proof.
  apply (@is_identical_collocation_undetermined lower_ru is_correct_word_ru
           tag_day (u "парково-хозяйственный день")
           (u "парково-хозяйственного дня") []);
    vm_compute; reflexivity.
Defined.

Lemma make_substrs_count_witness :
  2 * length (iterate (make_substrs
                         (u "распределение построения боевых порядков")))
  = (length (Str.split (u "распределение построения боевых порядков")) - 2)
    * (length (Str.split (u "распределение построения боевых порядков")) + 1).
Proof.
  apply (@make_substrs_count (u "распределение построения боевых порядков"));
    vm_compute; [discriminate | lia].
Defined.

Lemma get_longer_terms_word_counts_witness :
  In (coll "огня артиллерии большой" 3)
     [coll "по целям огня артиллерии" 4; coll "огня артиллерии большой" 3]
  /\ (2 <= wordcount (coll "огонь артиллерии" 2)
      < Z.of_nat (length (Str.split
                            (collocation (coll "огня артиллерии большой" 3)))))%Z.
Proof.
  apply (@get_longer_terms_word_counts lower_ru is_correct_word_ru tag_ru
           (coll "огонь артиллерии" 2) (coll "огня артиллерии большой" 3)
           [coll "по целям огня артиллерии" 4; coll "огня артиллерии большой" 3]
           fire_dictionary).
  vm_compute. left. reflexivity.
Defined.

Lemma get_longer_terms_untagged_line_witness :
  get_longer_terms lower_ru is_correct_word_ru tag_ru
    (coll "основная задача" 2)
    [coll "огня артиллерии большой" 3; coll "по целям огня артиллерии" 4]
    fire_dictionary
  = [].
Proof.
  apply (@get_longer_terms_untagged_line lower_ru is_correct_word_ru tag_ru).
  vm_compute. reflexivity.
Defined.

Lemma in_collocation_list_var_outcome_witness :
  in_collocation_list_var lower_ru is_correct_word_ru tag_ru
    (u "огня артиллерии") [u "основная задача"; u "огня артиллерии"]
  = (if Str.mem (u "огня артиллерии")
                [u "основная задача"; u "огня артиллерии"]
     then Ok (true, None)
     else
       bs <- comprehension
               (is_identical_collocation lower_ru is_correct_word_ru tag_ru
                  (u "огня артиллерии"))
               (Str.sort [u "основная задача"; u "огня артиллерии"]) ;;
       Ok (existsb id bs,
           option_map fst
             (find snd
                (combine (Str.sort [u "основная задача"; u "огня артиллерии"])
                         bs))),
     Str.sort [u "основная задача"; u "огня артиллерии"]).
Proof.
  apply (@in_collocation_list_var_outcome lower_ru is_correct_word_ru tag_ru);
    [discriminate|].
  intros [[tok [Hin Hf]]|[c [tok [Hc [Hin Hf]]]]].
  - vm_compute in Hin.
    destruct Hin as [<-|[<-|[]]]; vm_compute in Hf; discriminate Hf.
  - destruct Hc as [<-|[<-|[]]]; vm_compute in Hin;
      destruct Hin as [<-|[<-|[]]]; vm_compute in Hf; discriminate Hf.
Defined.

Example in_collocation_list_var_literal_run :
  in_collocation_list_var lower_ru is_correct_word_ru tag_ru
    (u "огня артиллерии") [u "основная задача"; u "огня артиллерии"]
  = (Ok (true, None), [u "огня артиллерии"; u "основная задача"]).
Proof. vm_compute. reflexivity. Qed.

Lemma is_identical_collocation_q_true_witness :
  tag_ru (u "огонь артиллерии") = tag_ru (u "огня артиллерии")
  \/ exists ws1 ws2 m1 m2,
       tag_ru (u "огонь артиллерии") = map Tagged ws1
       /\ tag_ru (u "огня артиллерии") = map Tagged ws2
       /\ map normalized ws1 = map normalized ws2
       /\ get_main_word (tag_ru (u "огонь артиллерии")) = Ok m1
       /\ get_main_word (tag_ru (u "огня артиллерии")) = Ok m2
       /\ is_identical_word lower_ru is_correct_word_ru tag_ru
            (WStr m1) (WStr m2) = Ok true.
Proof.
  apply (@is_identical_collocation_q_true lower_ru is_correct_word_ru tag_ru).
  vm_compute. reflexivity.
Defined.

Lemma assign_tags_word_set_witness :
  assign_tags (PStr (u "боевой порядок")) doc_dictionary
  = assign_tags (PStr (u "порядок боевой порядок")) doc_dictionary.
Proof.
  apply (@assign_tags_word_set (PStr (u "боевой порядок"))
           (PStr (u "порядок боевой порядок")) doc_dictionary).
  intros x. vm_compute. tauto.
Defined.

Lemma tag_word_index_error_witness :
  Tagger.tag_word is_letter (analyze_with day_lexicon) (u "ёёё" ++ [49%N])
  = Raise IndexError.
Proof.
  apply (@TaggerFacts.tag_word_index_error is_letter
           (analyze_with day_lexicon) (u "ёёё") 49%N).
  - intros c Hc. vm_compute in Hc.
    destruct Hc as [<-|[<-|[<-|[]]]]; split; reflexivity.
  - reflexivity.
  - reflexivity.
  - vm_compute. reflexivity.
Defined.

Lemma tag_collocation_plain_words_witness :
  Tagger.tag_collocation is_letter (analyze_with day_lexicon) separators_ru
    (u "день 123 дня")
  = (ts <- comprehension (Tagger.tag_word is_letter (analyze_with day_lexicon))
             (Str.split (u "день 123 дня")) ;;
     Ok (Tagger.kept ts))
  /\ forall items,
       Tagger.tag_collocation is_letter (analyze_with day_lexicon)
         separators_ru (u "день 123 дня") = Ok items ->
       exists ws,
         items = map Tagged ws
         /\ length ws <= length (Str.split (u "день 123 дня"))
         /\ forall w, In w ws -> word w <> [].
Proof.
  apply (@TaggerFacts.tag_collocation_plain_words is_letter
           (analyze_with day_lexicon) separators_ru (u "день 123 дня")).
  intros w s Hw Hs. vm_compute in Hw, Hs.
  destruct Hw as [<-|[<-|[<-|[]]]]; destruct Hs as [<-|[<-|[<-|[]]]];
    vm_compute; intuition discriminate.
Defined.

Lemma tag_collocation_inner_separator_witness :
  Tagger.tag_collocation is_letter (analyze_with day_lexicon) separators_ru
    (u "парково-хозяйственный")
  = (t <- Tagger.tag_word is_letter (analyze_with day_lexicon)
            (u "парково" ++ 45%N :: u "хозяйственный") ;;
     Ok (Tagger.to_item t
           :: map (fun s => Sep {| symbol := s |})
                  (filter (fun s => (s =? 45)%N) separators_ru)))
  /\ forall items,
       Tagger.tag_collocation is_letter (analyze_with day_lexicon)
         separators_ru (u "парково-хозяйственный") = Ok items ->
       In (Sep {| symbol := 45%N |}) items /\ get_main_word items = Ok [].
Proof.
  apply (@TaggerFacts.tag_collocation_inner_separator is_letter
           (analyze_with day_lexicon) separators_ru
           (u "парково-хозяйственный") (u "парково") (u "хозяйственный")
           45%N).
  - vm_compute. reflexivity.
  - vm_compute. discriminate.
  - vm_compute. discriminate.
  - vm_compute. left. reflexivity.
  - intros s Hs. vm_compute in Hs.
    destruct Hs as [<-|[<-|[<-|[]]]]; vm_compute; intuition discriminate.
Defined.
